(** * RealSense point-cloud streamer: the capture-to-broadcast pipeline

    A shallow embedding of [services/server.py], class [RealSenseStreamer]:
    the point-cloud builder, the encoder, the fan-out loop and the
    per-connection handler.

    - Python floats and [np.float64] are IEEE 754 binary64 values: Rocq's
      primitive [float], with its own [+ - * /].
    - A raised exception is a value: [result A] is either [Ok a] or
      [Raise e]; [try: ... except Exception:] is a [match] on it.
    - [self.clients], a Python [set] of connections, is a [gset] of
      connection identities ([id(websocket)]).
    - Coroutines are cut at their [await]s: the part of a task between two
      suspension points is one atomic step of a transition system. *)

From Stdlib Require Import ZArith NArith Floats Uint63 String Ascii Lia.
From Stdlib.Strings Require Import Byte.
From stdpp Require Import base option list sets gmap functions strings pretty.

Set Default Proof Using "Type".
#[local] Set Warnings "-clear-no-such-hyp".

(** ** Exceptions

    The subclasses of [Exception] the code meets. Cancelling a task raises
    a [BaseException], which no [except Exception] catches; cancellation
    is outside this model. *)

Inductive exn : Type :=
| IndexError          (* numpy index out of bounds *)
| AttributeError      (* attribute access on an object that lacks it *)
| CvError             (* cv2.error *)
| JSONDecodeError     (* json.loads on text that is not JSON *)
| ConnectionClosed    (* websockets.exceptions.ConnectionClosed *)
| OtherException.     (* any other subclass of Exception *)

#[global] Instance exn_eq_dec : EqDecision exn.
Proof. solve_decision. Defined.

Inductive result (A : Type) : Type :=
| Ok (a : A)
| Raise (e : exn).
Arguments Ok {A} a.
Arguments Raise {A} e.

#[global] Instance result_ret : MRet result := λ A a, Ok a.
#[global] Instance result_bind : MBind result := λ A B f m,
  match m with
  | Ok a => f a
  | Raise e => Raise e
  end.

(** [for x in xs: acc = body(acc, x)]; an exception leaves the loop. *)
Fixpoint for_each {S X : Type} (xs : list X) (acc : S)
    (body : S → X → result S) : result S :=
  match xs with
  | [] => Ok acc
  | x :: xs' => acc' ← body acc x; for_each xs' acc' body
  end.

(** Python's [range(start, stop, step)] for a positive [step]: its length
    is [ceil((stop - start) / step)]. *)
Definition range (start stop step : nat) : list nat :=
  (λ k, start + k * step) <$> seq 0 ((stop - start + (step - 1)) / step).

(** ** Frames, calibration and snapshots *)

(** A two-dimensional numpy array: its shape and its cells. *)
Record ndarray (A : Type) : Type := NdArray {
  rows : nat;
  cols : nat;
  item : nat → nat → A
}.
Arguments NdArray {A} rows cols item.
Arguments rows {A} _.
Arguments cols {A} _.
Arguments item {A} _ _ _.

(** [a[y, x]] for non-negative indices; numpy raises IndexError outside
    the shape. *)
Definition getitem {A : Type} (a : ndarray A) (y x : nat) : result A :=
  if bool_decide (y < rows a ∧ x < cols a) then Ok (item a y x)
  else Raise IndexError.

(** One pixel of an 8-bit three-channel image, channels in storage order. *)
Record pixel : Type := Pixel { ch0 : N; ch1 : N; ch2 : N }.

Definition tolist (p : pixel) : list N := [ch0 p; ch1 p; ch2 p].

(** [cv2.cvtColor(img, cv2.COLOR_BGR2RGB)]: the first and the third channel
    of every pixel change places; OpenCV refuses an empty image. *)
Definition cvtColor_BGR2RGB (img : ndarray pixel) : result (ndarray pixel) :=
  if bool_decide (rows img = 0 ∨ cols img = 0) then Raise CvError
  else Ok (NdArray (rows img) (cols img)
             (λ y x, let p := item img y x in Pixel (ch2 p) (ch1 p) (ch0 p))).

(** The depth frame: a [z16] image (unsigned 16-bit samples, here [N]) and
    [get_units()], the depth scale in meters per unit. *)
Record depth_frame : Type := DepthFrame {
  depth_data : ndarray N;
  get_units : float
}.

(** The color frame: a [bgr8] image. *)
Record color_frame : Type := ColorFrame {
  color_data : ndarray pixel
}.

(** [rs.intrinsics], as far as the streamer reads it. *)
Record intrinsics : Type := Intrinsics {
  fx : float;
  fy : float;
  ppx : float;
  ppy : float
}.

(** The dict [{'points': ..., 'colors': ..., 'timestamp': ...}]. *)
Record point_cloud : Type := PointCloud {
  points : list (list float);
  colors : list (list N);
  timestamp : float
}.

(** Conversions Python and numpy apply before mixed arithmetic: a pixel
    index (an [int]) and a depth sample (an [np.uint16]) become binary64;
    both are exact for every value a frame can hold. *)
Definition float_of_Z (z : Z) : float := PrimFloat.of_uint63 (Uint63.of_Z z).
Definition float_of_nat (n : nat) : float := float_of_Z (Z.of_nat n).
Definition float_of_N (n : N) : float := float_of_Z (Z.of_N n).

(** ** [RealSenseStreamer.generate_point_cloud] *)

Section Builder.
(** [self.intrinsics]: [None] until [setup_realsense] has succeeded. *)
Variable self_intrinsics : option intrinsics.

(** Reading an attribute of [self.intrinsics]. *)
Definition intrinsics_attr (attr : intrinsics → float) : result float :=
  match self_intrinsics with
  | Some i => Ok (attr i)
  | None => Raise AttributeError
  end.

(** The two lists the loops append to. *)
Definition cloud_acc : Type := list (list float) * list (list N).

(** The body of the inner loop, for the pixel [(y, x)]. *)
Definition pixel_body (depth_image : ndarray N) (color_image : ndarray pixel)
    (depth_scale : float) (y : nat) (acc : cloud_acc) (x : nat)
    : result cloud_acc :=
  depth ← getitem depth_image y x;
  if (0 <? depth)%N then
    let depth_meters := (float_of_N depth * depth_scale)%float in
    let pixel_x := x in
    let pixel_y := y in
    fx ← intrinsics_attr fx;
    fy ← intrinsics_attr fy;
    ppx ← intrinsics_attr ppx;
    ppy ← intrinsics_attr ppy;
    let z := depth_meters in
    let x_3d := ((float_of_nat pixel_x - ppx) * z / fx)%float in
    let y_3d := ((float_of_nat pixel_y - ppy) * z / fy)%float in
    let points := acc.1 ++ [[x_3d; y_3d; z]] in
    c ← getitem color_image y x;
    let colors := acc.2 ++ [tolist c] in
    Ok (points, colors)
  else Ok acc.

(** The [try] block. *)
Definition generate_point_cloud_body (depth_frame : depth_frame)
    (color_frame : color_frame) (now : float) : result point_cloud :=
  let depth_image := depth_data depth_frame in
  let color_image := color_data color_frame in
  color_image ← cvtColor_BGR2RGB color_image;
  let height := rows depth_image in
  let width := cols depth_image in
  let depth_scale := get_units depth_frame in
  acc ← for_each (range 0 height 2) ([], []) (λ acc y,
           for_each (range 0 width 2) acc
             (pixel_body depth_image color_image depth_scale y));
  Ok (PointCloud acc.1 acc.2 now).

(** [except Exception: return None]. [now] is what [time.time()] returns. *)
Definition generate_point_cloud (depth_frame : depth_frame)
    (color_frame : color_frame) (now : float) : option point_cloud :=
  match generate_point_cloud_body depth_frame color_frame now with
  | Ok pc => Some pc
  | Raise _ => None
  end.
End Builder.

(** ** What the builder computes, pixel by pixel *)

(** The pixels the two loops visit, in the order they visit them: every
    second row, and in it every second column. *)
Definition sampled_pixels (height width : nat) : list (nat * nat) :=
  y ← range 0 height 2; x ← range 0 width 2; [(y, x)].

(** The sampled pixels that carry a depth reading. *)
Definition valid_pixels (depth_image : ndarray N) : list (nat * nat) :=
  filter (λ p, (item depth_image p.1 p.2 ≠ 0)%N)
         (sampled_pixels (rows depth_image) (cols depth_image)).

(** Pinhole unprojection of the pixel [(y, x)] with raw depth [depth]. *)
Definition unproject (i : intrinsics) (depth_scale : float) (depth : N)
    (y x : nat) : list float :=
  let z := (float_of_N depth * depth_scale)%float in
  [ ((float_of_nat x - ppx i) * z / fx i)%float;
    ((float_of_nat y - ppy i) * z / fy i)%float;
    z ].

(** The color of the pixel [(y, x)] of a BGR image, as the list [[r, g, b]]. *)
Definition rgb_at (color_image : ndarray pixel) (y x : nat) : list N :=
  let p := item color_image y x in [ch2 p; ch1 p; ch0 p].

(** The snapshot of a frame pair under calibration [i]. *)
Definition cloud_of (i : intrinsics) (df : depth_frame) (cf : color_frame)
    (now : float) : point_cloud :=
  let px := valid_pixels (depth_data df) in
  PointCloud
    ((λ p, unproject i (get_units df) (item (depth_data df) p.1 p.2) p.1 p.2) <$> px)
    ((λ p, rgb_at (color_data cf) p.1 p.2) <$> px)
    now.

(** The color image has a pixel at [(y, x)]. *)
Definition covers (color_image : ndarray pixel) (p : nat * nat) : Prop :=
  p.1 < rows color_image ∧ p.2 < cols color_image.

(** The frame pair goes through the builder without an exception: the
    color image is not empty and, unless no sampled pixel carries a depth
    reading, calibration is there and the color image has a pixel
    wherever a sampled depth reading is. *)
Definition accepted (self_intrinsics : option intrinsics) (df : depth_frame)
    (cf : color_frame) : Prop :=
  ¬ (rows (color_data cf) = 0 ∨ cols (color_data cf) = 0) ∧
  Forall (λ p, is_Some self_intrinsics ∧ covers (color_data cf) p)
         (valid_pixels (depth_data df)).

#[global] Instance accepted_dec self_intrinsics df cf :
  Decision (accepted self_intrinsics df cf).
Proof. unfold accepted, covers. apply _. Defined.

(** The two grids have different shapes. *)
Definition shape_mismatch (df : depth_frame) (cf : color_frame) : Prop :=
  rows (depth_data df) ≠ rows (color_data cf) ∨
  cols (depth_data df) ≠ cols (color_data cf).

(** ** [RealSenseStreamer.compress_point_cloud] *)

Section Encoder.
(** [float.__repr__], which [json.dumps] writes a float with (and [NaN],
    [Infinity], [-Infinity] for the values that have no JSON number). *)
Variable float_repr : float → string.

(** What [gzip.compress] emits after the three bytes every gzip member
    starts with: the rest of the header, the DEFLATE stream and the
    trailer. *)
Variable gzip_rest : list byte → list byte.

Definition quoted (s : string) : string :=
  String "034" s +:+ String "034" EmptyString.

Definition json_array (items : list string) : string :=
  "[" +:+ String.concat ", " items +:+ "]".

(** [json.dumps(point_cloud_data)] with the default separators; the keys
    come in the order the dict was built in. A dict of lists of floats
    and ints always serialises. *)
Definition json_dumps_point_cloud (pc : point_cloud) : string :=
  "{" +:+ quoted "points" +:+ ": " +:+
    json_array ((λ p, json_array (float_repr <$> p)) <$> points pc) +:+
  ", " +:+ quoted "colors" +:+ ": " +:+
    json_array ((λ c, json_array (pretty <$> c)) <$> colors pc) +:+
  ", " +:+ quoted "timestamp" +:+ ": " +:+ float_repr (timestamp pc) +:+ "}".

(** [gzip.compress]: magic number [1f 8b], compression method 8. *)
Definition gzip_compress (data : list byte) : list byte :=
  x1f :: x8b :: x08 :: gzip_rest data.

Definition compress_point_cloud (point_cloud_data : point_cloud)
    : option (list byte) :=
  let json_data := json_dumps_point_cloud point_cloud_data in
  let compressed_data := gzip_compress (list_byte_of_string json_data) in
  Some compressed_data.
End Encoder.

(** ** Connections and what travels over them *)

(** A connection object ([websocket]), told apart by identity; [id()] of it
    is the client id. *)
Definition conn : Type := N.

(** A parsed JSON document. *)
#[local] Unset Elimination Schemes.
Inductive json : Type :=
| JNull
| JBool (b : bool)
| JInt (z : Z)
| JFloat (f : float)
| JStr (s : string)
| JList (l : list json)
| JDict (d : list (string * json)).
#[local] Set Elimination Schemes.

(** A frame the server hands to a connection: a text frame holding
    [json.dumps(doc)], or a binary frame. *)
Inductive frame : Type :=
| Text (doc : json)
| Binary (data : list byte).

(** A message a client sent. *)
Inductive message : Type :=
| TextMessage (s : string)
| BinaryMessage (data : list byte).

(** How one [await websocket.send(...)] goes. *)
Inductive send_outcome : Type :=
| Delivered
| Raised (e : exn).

#[global] Instance send_outcome_eq_dec : EqDecision send_outcome.
Proof. solve_decision. Defined.

(** ... and how long it takes to return or raise, in milliseconds. *)
Record send_behaviour : Type := SendBehaviour {
  latency : nat;
  outcome : send_outcome
}.

(** Lines the server prints. *)
Inductive console : Type :=
| ErrorSendingToClient (e : exn)
| RemovedDisconnected (removed active : nat)
| InvalidJSON (client_id : conn)
| ErrorHandlingMessage (e : exn).

(** ** The fan-out of [stream_to_clients] *)

(** One pass through the body of [for client in self.clients]. *)
Record attempt : Type := Attempt {
  recipient : conn;
  payload : list byte;
  started : nat;      (* ms since the round began *)
  finished : nat;
  went : send_outcome
}.

(** The state of a round: the time since it began, the sends so far,
    [disconnected_clients], and what was printed. *)
Record round : Type := Round {
  clock : nat;
  attempts : list attempt;
  disconnected_clients : gset conn;
  printed : list console
}.

Definition round_start : round := Round 0 [] ∅ [].

(** [try: await client.send(compressed_data)] with its two [except]
    clauses. The next pass starts when this one is over. *)
Definition send_to (compressed_data : list byte) (b : send_behaviour)
    (r : round) (client : conn) : round :=
  let t := clock r + latency b in
  let a := Attempt client compressed_data (clock r) t (outcome b) in
  match outcome b with
  | Delivered =>
      Round t (attempts r ++ [a]) (disconnected_clients r) (printed r)
  | Raised ConnectionClosed =>
      Round t (attempts r ++ [a]) (disconnected_clients r ∪ {[client]}) (printed r)
  | Raised e =>
      Round t (attempts r ++ [a]) (disconnected_clients r ∪ {[client]})
            (printed r ++ [ErrorSendingToClient e])
  end.

(** The [for] loop over the members, in the order the set yields them. *)
Definition send_loop (compressed_data : list byte)
    (link : conn → send_behaviour) (members : list conn) (r : round) : round :=
  foldl (λ r client, send_to compressed_data (link client) r client) r members.

(** [self.clients -= disconnected_clients] and the line printed with it. *)
Definition prune (clients : gset conn) (r : round) : gset conn * round :=
  let clients' := clients ∖ disconnected_clients r in
  (clients',
   if decide (disconnected_clients r = ∅) then r
   else Round (clock r) (attempts r) (disconnected_clients r)
          (printed r ++ [RemovedDisconnected (size (disconnected_clients r))
                                              (size clients')])).

(** The block under [with self.lock:]. *)
Definition fan_out (compressed_data : list byte)
    (link : conn → send_behaviour) (clients : gset conn) : gset conn * round :=
  prune clients (send_loop compressed_data link (elements clients) round_start).

(** The period the loop sleeps for, [asyncio.sleep(0.033)], in ms. *)
Definition tick_period : nat := 33.

(** ** One pass through the loop of [stream_to_clients] *)

Inductive tick : Type :=
| NoFrame                     (* [continue]: no depth or no color frame *)
| NothingSent                 (* the builder or the encoder gave nothing *)
| FannedOut (compressed_data : list byte) (r : round).

(** The truth value of a [bytes] object. *)
Definition nonempty_bytes (b : list byte) : bool :=
  match b with [] => false | _ :: _ => true end.

Section Broadcaster.
Variable float_repr : float → string.
Variable gzip_rest : list byte → list byte.
Variable self_intrinsics : option intrinsics.

(** The frames are [None] here when the frame object is falsy. A
    snapshot, a dict of three keys, is always truthy. *)
Definition stream_iteration (depth_frame : option depth_frame)
    (color_frame : option color_frame) (now : float)
    (link : conn → send_behaviour) (clients : gset conn)
    : gset conn * tick :=
  match depth_frame, color_frame with
  | Some depth_frame, Some color_frame =>
      match generate_point_cloud self_intrinsics depth_frame color_frame now with
      | Some point_cloud_data =>
          match compress_point_cloud float_repr gzip_rest point_cloud_data with
          | Some compressed_data =>
              if nonempty_bytes compressed_data then
                let '(clients', r) := fan_out compressed_data link clients in
                (clients', FannedOut compressed_data r)
              else (clients, NothingSent)
          | None => (clients, NothingSent)
          end
      | None => (clients, NothingSent)
      end
  | _, _ => (clients, NoFrame)
  end.
End Broadcaster.

(** ** [RealSenseStreamer.handle_client] *)

Definition welcome_msg (client_id : conn) : json :=
  JDict [("type", JStr "welcome"); ("message", JStr "hi");
         ("client_id", JInt (Z.of_N client_id))].

Definition pong_msg : json := JDict [("type", JStr "pong")].

(** The value a dict holds under [key]. *)
Fixpoint lookup_key (key : string) (d : list (string * json)) : option json :=
  match d with
  | [] => None
  | (k, v) :: d' => if String.eqb k key then Some v else lookup_key key d'
  end.

(** [data.get(key)]: [None] (JSON [null]) for a dict without the key; any
    other JSON value has no method [get]. *)
Definition dict_get (data : json) (key : string) : result json :=
  match data with
  | JDict d => Ok (default JNull (lookup_key key d))
  | _ => Raise AttributeError
  end.

(** [v == s] for a string literal [s]. *)
Definition eq_str (v : json) (s : string) : bool :=
  match v with
  | JStr s' => String.eqb s' s
  | _ => false
  end.

Section ControlChannel.
(** [json.loads]; a document's dict holds each key once. *)
Variable json_loads : message → result json.

(** The [try] block of the message loop; [pong] is how the send of the
    reply goes, when there is one. It yields the frames handed to the
    connection. *)
Definition message_try (pong : send_outcome) (message : message)
    : result (list frame) :=
  data ← json_loads message;
  ty ← dict_get data "type";
  if eq_str ty "ping" then
    match pong with
    | Delivered => Ok [Text pong_msg]
    | Raised e => Raise e
    end
  else Ok [].

(** One pass through the body of [async for message in websocket]: the
    frames handed to the connection and the lines printed, or the
    exception that leaves the loop. *)
Definition on_message (client_id : conn) (pong : send_outcome)
    (message : message) : result (list frame * list console) :=
  match message_try pong message with
  | Ok sent => Ok (sent, [])
  | Raise JSONDecodeError => Ok ([], [InvalidJSON client_id])
  | Raise e => Ok ([], [ErrorHandlingMessage e])
  end.

(** ** The server as a transition system

    The event loop runs one task at a time and changes task only at an
    [await]. A step below is what one task does between two of its
    suspension points, when it gets that far; a task that needs
    [self.lock] while another task holds it completes no step (what
    becomes of it, and of the thread, is [turn] below). A send hands its
    frame to the connection before it suspends, so a connection carries
    its frames in the order of the calls. *)

Inductive handler_pc : Type :=
| NotConnected      (* [handle_client] has not got to [self.clients.add] *)
| Serving           (* in the message loop *)
| Gone.             (* past [finally] *)

Inductive broadcaster_pc : Type :=
| Idle              (* outside the [with self.lock] block *)
| Sending (compressed_data : list byte) (pending : list conn) (r : round).

Record server : Type := Server {
  clients : gset conn;                (* [self.clients] *)
  lock_held : bool;                   (* [self.lock] *)
  broadcaster : broadcaster_pc;       (* [stream_to_clients] *)
  handlers : conn → handler_pc;       (* one [handle_client] per connection *)
  wire : conn → list frame            (* frames handed to each connection, oldest first *)
}.

Definition server_start : server :=
  Server ∅ false Idle (λ _, NotConnected) (λ _, []).

Inductive action : Type :=
| Connect (websocket : conn) (welcome : send_outcome)
| Receive (websocket : conn) (message : message) (pong : send_outcome)
| Close (websocket : conn)
| RoundBegin (compressed_data : list byte)
| RoundSend (b : send_behaviour)
| RoundEnd.

(** The connection [to] is handed the frames [fs]. *)
Definition hand (fs : list frame) (to : conn) (w : conn → list frame)
    : conn → list frame :=
  <[to := w to ++ fs]> w.

(** One step that a task completes; [None] when it completes none in this
    state: the task is not at that point, or it does not get [self.lock]. *)
Definition step (s : server) (a : action) : option server :=
  match a with
  | Connect websocket welcome =>
      (* [with self.lock: self.clients.add(websocket)], the welcome
         message, and on an exception [finally: ... discard] *)
      match handlers s websocket, lock_held s with
      | NotConnected, false =>
          let added := clients s ∪ {[websocket]} in
          match welcome with
          | Delivered =>
              Some (Server added false (broadcaster s)
                      (<[websocket := Serving]> (handlers s))
                      (hand [Text (welcome_msg websocket)] websocket (wire s)))
          | Raised _ =>
              Some (Server (added ∖ {[websocket]}) false (broadcaster s)
                      (<[websocket := Gone]> (handlers s)) (wire s))
          end
      | _, _ => None
      end
  | Receive websocket message pong =>
      match handlers s websocket with
      | Serving =>
          match on_message websocket pong message with
          | Ok (sent, _) =>
              Some (Server (clients s) (lock_held s) (broadcaster s)
                      (handlers s) (hand sent websocket (wire s)))
          | Raise _ =>
              (* out of the loop, to [finally: with self.lock: discard] *)
              if lock_held s then None
              else Some (Server (clients s ∖ {[websocket]}) false (broadcaster s)
                           (<[websocket := Gone]> (handlers s)) (wire s))
          end
      | _ => None
      end
  | Close websocket =>
      (* the loop is over: [finally: with self.lock: discard] *)
      match handlers s websocket, lock_held s with
      | Serving, false =>
          Some (Server (clients s ∖ {[websocket]}) false (broadcaster s)
                  (<[websocket := Gone]> (handlers s)) (wire s))
      | _, _ => None
      end
  | RoundBegin compressed_data =>
      (* [with self.lock:] up to the first send *)
      match broadcaster s, lock_held s with
      | Idle, false =>
          Some (Server (clients s) true
                  (Sending compressed_data (elements (clients s)) round_start)
                  (handlers s) (wire s))
      | _, _ => None
      end
  | RoundSend b =>
      match broadcaster s with
      | Sending compressed_data (client :: pending) r =>
          Some (Server (clients s) (lock_held s)
                  (Sending compressed_data pending
                     (send_to compressed_data b r client))
                  (handlers s)
                  (match outcome b with
                   | Delivered => hand [Binary compressed_data] client (wire s)
                   | Raised _ => wire s
                   end))
      | _ => None
      end
  | RoundEnd =>
      (* the loop is over: prune, leave the [with] block *)
      match broadcaster s with
      | Sending _ [] r =>
          Some (Server (prune (clients s) r).1 false Idle (handlers s) (wire s))
      | _ => None
      end
  end.

(** A run of the server. *)
Fixpoint run (acts : list action) (s : server) : option server :=
  match acts with
  | [] => Some s
  | a :: acts' => s' ← step s a; run acts' s'
  end.

Definition reachable (s : server) : Prop :=
  ∃ acts, run acts server_start = Some s.
End ControlChannel.

(** ** What a connection has been handed *)

(** A frame that may follow the handshake: a pong or a binary payload. *)
Definition later_frame (f : frame) : Prop :=
  f = Text pong_msg ∨ ∃ data, f = Binary data.

(** The connection was handed its handshake first, and once. *)
Definition greeted (websocket : conn) (w : list frame) : Prop :=
  ∃ rest, w = Text (welcome_msg websocket) :: rest ∧ Forall later_frame rest.

(** What holds in every state the server can be in. *)
Record server_inv (s : server) : Prop := ServerInv {
  inv_lock :
    lock_held s = match broadcaster s with Idle => false | Sending _ _ _ => true end;
  inv_fresh :
    ∀ websocket, handlers s websocket = NotConnected →
                 (websocket ∉ clients s) ∧ wire s websocket = [];
  inv_members :
    ∀ websocket, websocket ∈ clients s → handlers s websocket = Serving;
  inv_greeted :
    ∀ websocket, handlers s websocket = Serving →
                 greeted websocket (wire s websocket);
  inv_wire :
    ∀ websocket, wire s websocket = [] ∨ greeted websocket (wire s websocket);
  inv_round :
    ∀ data pending r, broadcaster s = Sending data pending r →
      (recipient <$> attempts r) ++ pending = elements (clients s)
}.

(** ** The thread of the event loop

    [self.lock] is a [threading.Lock], and all the tasks run on the one
    thread of the event loop. A round holds the lock while it is suspended
    in [await client.send(...)]; a handler that comes to its
    [with self.lock:] then blocks in [acquire], and the thread with it:
    the round is never resumed, the lock never released, and no task runs
    again. *)
Inductive event_loop : Type :=
| Running (s : server)
| Deadlocked (s : server) (websocket : conn).
    (* the handler of [websocket] is blocked at [with self.lock:] *)

Definition state_of (l : event_loop) : server :=
  match l with
  | Running s => s
  | Deadlocked s _ => s
  end.

(** The broadcaster is at an [await], where the event loop can give the
    turn to a handler: it sleeps between two rounds, or it is suspended in
    a send. From [with self.lock:] to the call of its first send there is
    no [await]. *)
Definition suspended (s : server) : bool :=
  match broadcaster s with
  | Idle => true
  | Sending _ _ r => match attempts r with [] => false | _ :: _ => true end
  end.

Section EventLoop.
Variable json_loads : message → result json.

(** The handler that the action brings to a [with self.lock:]: to line
    178 when it starts, to line 205 when its loop is over. *)
Definition acquires (s : server) (a : action) : option conn :=
  match a with
  | Connect websocket _ =>
      match handlers s websocket with
      | NotConnected => Some websocket
      | _ => None
      end
  | Receive websocket message pong =>
      match handlers s websocket, on_message json_loads websocket pong message with
      | Serving, Raise _ => Some websocket
      | _, _ => None
      end
  | Close websocket =>
      match handlers s websocket with
      | Serving => Some websocket
      | _ => None
      end
  | RoundBegin _ | RoundSend _ | RoundEnd => None
  end.

(** The event loop gives the turn to the task of [a]. A handler gets the
    turn only while the broadcaster is at an [await]; a handler that comes
    to the lock while the round holds it blocks the thread. [None]: the
    task is not at that point, or the thread is blocked. *)
Definition turn (l : event_loop) (a : action) : option event_loop :=
  match l with
  | Deadlocked _ _ => None
  | Running s =>
      match a with
      | RoundBegin _ | RoundSend _ | RoundEnd => Running <$> step json_loads s a
      | Connect _ _ | Receive _ _ _ | Close _ =>
          if suspended s then
            match acquires s a, lock_held s with
            | Some websocket, true => Some (Deadlocked s websocket)
            | _, _ => Running <$> step json_loads s a
            end
          else None
      end
  end.

Fixpoint play (acts : list action) (l : event_loop) : option event_loop :=
  match acts with
  | [] => Some l
  | a :: acts' => l' ← turn l a; play acts' l'
  end.
End EventLoop.

(** A stand-in for [json.loads] that knows three documents: the liveness
    request, an object of another type, and a list; it takes every other
    text for malformed. *)
Definition loads_sample (m : message) : result json :=
  match m with
  | TextMessage s =>
      if String.eqb s ("{" +:+ quoted "type" +:+ ": " +:+ quoted "ping" +:+ "}")
      then Ok (JDict [("type", JStr "ping")])
      else if String.eqb s ("{" +:+ quoted "type" +:+ ": " +:+ quoted "hello" +:+ "}")
      then Ok (JDict [("type", JStr "hello")])
      else if String.eqb s "[1, 2]"
      then Ok (JList [JInt 1; JInt 2])
      else Raise JSONDecodeError
  | BinaryMessage _ => Raise OtherException
  end.

Definition ping_text : message :=
  TextMessage ("{" +:+ quoted "type" +:+ ": " +:+ quoted "ping" +:+ "}").
Definition hello_text : message :=
  TextMessage ("{" +:+ quoted "type" +:+ ": " +:+ quoted "hello" +:+ "}").

(** ** Sample inputs *)

(** The calibration and the depth scale of the specification's example:
    fx = fy = 600, ppx = 320, ppy = 240, and the binary64 value of 0.001. *)
Definition calibration_600 : intrinsics := Intrinsics 600 600 320 240.
Definition millimeters : float := 0x1.0624dd2f1a9fcp-10%float.

(** A 640 x 480 frame pair: one depth reading of 1000 units at x = 320,
    y = 240, and a color image of one color. *)
Definition one_reading : depth_frame :=
  DepthFrame
    (NdArray 480 640 (λ y x, if decide (y = 240 ∧ x = 320) then 1000%N else 0%N))
    millimeters.
Definition plain_color : color_frame :=
  ColorFrame (NdArray 480 640 (λ _ _, Pixel 30 20 10)).

(** A 4 x 6 frame pair: depth readings at (0, 0), (2, 4) and at the
    unsampled (1, 1); the color of a pixel tells its position. *)
Definition small_depth : depth_frame :=
  DepthFrame
    (NdArray 4 6 (λ y x,
       if decide (y = 0 ∧ x = 0) then 500%N
       else if decide (y = 2 ∧ x = 4) then 2000%N
       else if decide (y = 1 ∧ x = 1) then 700%N
       else 0%N))
    millimeters.
Definition small_color : color_frame :=
  ColorFrame (NdArray 4 6 (λ y x, Pixel (N.of_nat x) (N.of_nat y) 255)).

(** A depth frame without a single reading, and a color image larger than
    the depth images above. *)
Definition no_reading : depth_frame :=
  DepthFrame (NdArray 4 6 (λ _ _, 0%N)) millimeters.
Definition large_color : color_frame :=
  ColorFrame (NdArray 8 8 (λ _ _, Pixel 30 20 10)).

(** ** A round, send after send *)

(** The sends of a loop that begins at time [t0]: each starts when the one
    before it is over. *)
Fixpoint timeline (compressed_data : list byte)
    (link : conn → send_behaviour) (t0 : nat) (members : list conn)
    : list attempt :=
  match members with
  | [] => []
  | client :: members' =>
      let t := t0 + latency (link client) in
      Attempt client compressed_data t0 t (outcome (link client))
        :: timeline compressed_data link t members'
  end.

(** The members whose send raises. *)
Definition failing (link : conn → send_behaviour) (members : list conn)
    : list conn :=
  filter (λ client, outcome (link client) ≠ Delivered) members.

(** Three clients and a link on which the sends take 20 ms each and the
    one to client 2 breaks. *)
Definition three_clients : gset conn := {[1%N; 2%N; 3%N]}.
Definition link_2_broken (client : conn) : send_behaviour :=
  if decide (client = 2%N) then SendBehaviour 20 (Raised ConnectionClosed)
  else SendBehaviour 20 Delivered.

(** A link on which the send to client 2 takes 100 ms, three tick
    periods or so, and arrives; the others take 1 ms. *)
Definition link_2_slow (client : conn) : send_behaviour :=
  if decide (client = 2%N) then SendBehaviour 100 Delivered
  else SendBehaviour 1 Delivered.

(** A link on which every send takes 20 ms and arrives. *)
Definition link_20ms (client : conn) : send_behaviour :=
  SendBehaviour 20 Delivered.

(** A run of the server: client 1 connects, a round sends it a payload,
    the client asks for a sign of life, and a second round begins. *)
Definition sample_payload : list byte := [x1f; x8b; x08].
Definition sample_run : list action :=
  [ Connect 1%N Delivered;
    RoundBegin sample_payload;
    RoundSend (SendBehaviour 5 Delivered);
    RoundEnd;
    Receive 1%N ping_text Delivered;
    RoundBegin sample_payload ].

(** Runs in which a handler comes to the lock while a round is suspended
    in a slow send. In the first, client 2 connects while the round waits
    for its send to client 1. In the second, three clients are registered
    and the set yields them in the order 2, 3, 1: the send to client 2
    finds the connection closed, the round goes on to client 3, and while
    that send is under way the handler of client 2, its message loop over
    with the connection, comes to its [finally]. *)
Definition slow_send : send_behaviour := SendBehaviour 100 Delivered.
Definition run_into_slow_send : list action :=
  [ Connect 1%N Delivered;
    RoundBegin sample_payload;
    RoundSend slow_send ].
Definition run_with_late_client : list action :=
  run_into_slow_send ++ [ Connect 2%N Delivered ].
Definition run_with_closed_client : list action :=
  [ Connect 1%N Delivered;
    Connect 2%N Delivered;
    Connect 3%N Delivered;
    RoundBegin sample_payload;
    RoundSend (SendBehaviour 0 (Raised ConnectionClosed));
    RoundSend slow_send;
    Close 2%N ].

(** ** The loop of [stream_to_clients], tick after tick *)

(** What one pass through the loop meets: the frames [wait_for_frames]
    and [align.process] give (or the exception they raise), the clock, and
    how the sends of this tick go. *)
Record capture : Type := Capture {
  wait_for_frames : result (option depth_frame * option color_frame);
  time_now : float;
  network : conn → send_behaviour
}.

(** The clients a tick made a send to. *)
Definition tick_recipients (t : tick) : list conn :=
  match t with
  | FannedOut _ r => recipient <$> attempts r
  | _ => []
  end.

Section BroadcastLoop.
Variable float_repr : float → string.
Variable gzip_rest : list byte → list byte.
Variable self_intrinsics : option intrinsics.

(** [while self.streaming:] over the captures to come. It yields the
    registry, the ticks that took place, and [self.streaming]: an
    exception of the capture leaves the loop through [except Exception]
    and [finally: self.streaming = False]; when the captures given are
    used up the loop is still running. *)
Fixpoint stream_loop (captures : list capture) (clients : gset conn)
    : gset conn * list tick * bool :=
  match captures with
  | [] => (clients, [], true)
  | c :: captures' =>
      match wait_for_frames c with
      | Raise _ => (clients, [], false)
      | Ok (depth_frame, color_frame) =>
          let '(clients', t) :=
            stream_iteration float_repr gzip_rest self_intrinsics
              depth_frame color_frame (time_now c) (network c) clients in
          let '(final, ticks, streaming) := stream_loop captures' clients' in
          (final, t :: ticks, streaming)
      end
  end.

(** [pipeline] tells whether [self.pipeline] is set. *)
Definition stream_to_clients (pipeline : bool) (captures : list capture)
    (clients : gset conn) : gset conn * list tick * bool :=
  if pipeline then stream_loop captures clients
  else (clients, [], false).
End BroadcastLoop.

(** Two captures of the frame pair [small_depth], [small_color], the
    first over [link_2_broken], the second over [link_20ms]; and a capture
    that fails. *)
Definition capture_2_broken : capture :=
  Capture (Ok (Some small_depth, Some small_color)) 0 link_2_broken.
Definition capture_fine : capture :=
  Capture (Ok (Some small_depth, Some small_color)) 1 link_20ms.
Definition capture_failed : capture :=
  Capture (Raise OtherException) 2 link_20ms.

(** A server with three registered clients, each past its handshake, and
    no round in progress. *)
Definition three_served : server :=
  Server three_clients false Idle (λ _, Serving)
         (λ client, [Text (welcome_msg client)]).

(** A run in which the send to client 1 breaks: the round prunes the
    client, which then asks for a sign of life and sees a second round go
    by before its handler ends. *)
Definition run_with_pruned_client : list action :=
  [ Connect 1%N Delivered;
    RoundBegin sample_payload;
    RoundSend (SendBehaviour 5 (Raised ConnectionClosed));
    RoundEnd ].
Definition run_after_pruning : list action :=
  [ Receive 1%N ping_text Delivered;
    Connect 2%N Delivered;
    RoundBegin sample_payload;
    RoundSend (SendBehaviour 5 Delivered);
    RoundEnd;
    Close 1%N ].

(** ** [control-svc.py]: joystick commands for the serial port *)

(** A Python [str]: its code points. *)
Definition str : Type := list N.

(** A literal. *)
Definition lit (s : string) : str := N_of_ascii <$> list_ascii_of_string s.

(** The code points [str.strip()] removes: the ones [str.isspace] holds
    of. *)
Definition isspace (c : N) : bool :=
  ((9 <=? c) && (c <=? 13) || (28 <=? c) && (c <=? 32) ||
   (c =? 133) || (c =? 160) || (c =? 5760) ||
   (8192 <=? c) && (c <=? 8202) ||
   (c =? 8232) || (c =? 8233) || (c =? 8239) || (c =? 8287) ||
   (c =? 12288))%N.

Fixpoint lstrip (s : str) : str :=
  match s with
  | [] => []
  | c :: s' => if isspace c then lstrip s' else s
  end.

Definition rstrip (s : str) : str := reverse (lstrip (reverse s)).

Definition strip (s : str) : str := rstrip (lstrip s).

(** [s.split(",")]. *)
Fixpoint split_comma (s : str) : list str :=
  match s with
  | [] => [[]]
  | c :: s' =>
      if (c =? 44)%N then [] :: split_comma s'
      else match split_comma s' with
           | [] => [[c]]
           | field :: fields => (c :: field) :: fields
           end
  end.

(** A message of the control connection: text, or bytes. *)
Inductive control_message : Type :=
| ControlText (s : str)
| ControlBinary (data : list byte).

(** What the handler does for a message: [ser.write(line.encode('utf-8'))]
    returned, or one of its two error replies was sent. *)
Inductive serial_effect : Type :=
| SerialWrite (line : str)
| ReplyError (e : exn)            (* [f"Error: {str(e)}"] *)
| ReplyUnavailable.               (* ["Error: Serial port not available"] *)

(** [if (v < 5 and v > -5): v = 0]. *)
Definition deadband (v : Z) : Z :=
  if ((v <? 5) && (v >? -5))%Z then 0%Z else v.

(** [f"{l},{r}\n"]. *)
Definition command_line (l r : Z) : str :=
  lit (pretty l) ++ [44%N] ++ lit (pretty r) ++ [10%N].

(** The characters of an integer in decimal: the digits and the minus
    sign. *)
Definition number_char (c : N) : Prop := (c = 45 ∨ 48 ≤ c ≤ 57)%N.

Section ControlService.
(** [int(s)]; it raises ValueError on what is no integer literal. *)
Variable py_int : str → result Z.

(** The part of the inner [try] block before the write: a message of two
    fields is read as two integers and written anew. *)
Definition joystick_line (message : str) : result str :=
  match split_comma message with
  | [l; r] =>
      l ← py_int l;
      r ← py_int r;
      let l := deadband l in
      let r := deadband r in
      Ok (command_line l r)
  | _ => Ok message
  end.

(** One pass through the body of [async for message in websocket];
    [ser] tells whether the serial port is open, [write] how
    [ser.write(message.encode('utf-8'))] goes and [reply] how the send of
    an error reply goes. A [Raise] leaves the loop, and the handler with
    it. For bytes, [message.strip() + '\n'] raises TypeError. *)
Definition forward_message (ser : bool) (write : result unit)
    (reply : send_outcome) (message : control_message)
    : result (list serial_effect) :=
  match message with
  | ControlBinary _ => Raise OtherException
  | ControlText message =>
      let message := strip message ++ [10%N] in
      if ser then
        match (line ← joystick_line message; _ ← write; Ok line) with
        | Ok line => Ok [SerialWrite line]
        | Raise e =>
            match reply with
            | Delivered => Ok [ReplyError e]
            | Raised e' => Raise e'
            end
        end
      else
        match reply with
        | Delivered => Ok [ReplyUnavailable]
        | Raised e' => Raise e'
        end
  end.
End ControlService.

(** A stand-in for [int] that knows plain decimal literals: blanks, a
    sign, digits, blanks. *)
Fixpoint digits_value (acc : Z) (s : str) : option Z :=
  match s with
  | [] => Some acc
  | c :: s' =>
      if ((48 <=? c) && (c <=? 57))%N
      then digits_value (10 * acc + Z.of_N (c - 48)) s'
      else None
  end.

Definition int_decimal (s : str) : result Z :=
  match strip s with
  | [] => Raise OtherException
  | c :: digits =>
      if (c =? 45)%N then
        match digits with
        | [] => Raise OtherException
        | _ => from_option (λ v, Ok (- v)%Z) (Raise OtherException)
                 (digits_value 0 digits)
        end
      else from_option Ok (Raise OtherException) (digits_value 0 (c :: digits))
  end.

(** ** [mjpeg_stream.py]: saving frames *)

(** A call that writes a file: [cv2.imwrite] to
    ["temp_frames/rgb/{index}.jpg"] and [np.save] to
    ["temp_frames/depth/{index}_intrinsics.npy"]. *)
Inductive file_write : Type :=
| ImWrite (index : nat)
| NpSave (index : nat).

(** The globals [save_frame] works on: [frame_count], whether
    [latest_frame] has been set, and the writes made so far. *)
Record recorder : Type := Recorder {
  frame_count : nat;
  has_latest_frame : bool;
  writes : list file_write
}.

Definition recorder_start : recorder := Recorder 0 false [].

(** What a request to [/save_frame] meets: the value of [capturing] it
    reads, what [pipeline.wait_for_frames().get_color_frame()] gives
    ([None] for a falsy frame), and how the two writes go. *)
Record save_request : Type := SaveRequest {
  capturing : bool;
  color_frame_now : result (option (ndarray pixel));
  imwrite : result bool;
  np_save : result unit
}.

(** The answers of [/save_frame]; an exception becomes an error answer of
    the web framework. *)
Inductive save_answer : Type :=
| NotInCaptureMode
| SavedFrame (index : nat)
| FailedToSave
| ServerError (e : exn).

(** [save_frame()]; the part under [frame_lock] runs for one request at a
    time. *)
Definition save_frame (req : save_request) (st : recorder)
    : save_answer * recorder :=
  if negb (capturing req) then (NotInCaptureMode, st)
  else if has_latest_frame st then
    match color_frame_now req with
    | Raise e => (ServerError e, st)
    | Ok None => (FailedToSave, st)
    | Ok (Some color_image) =>
        match imwrite req with
        | Raise e => (ServerError e, st)
        | Ok _ =>
            let written := writes st ++ [ImWrite (frame_count st)] in
            match np_save req with
            | Raise e =>
                (ServerError e, Recorder (frame_count st) true written)
            | Ok _ =>
                (SavedFrame (frame_count st),
                 Recorder (frame_count st + 1) true
                          (written ++ [NpSave (frame_count st)]))
            end
        end
    end
  else (FailedToSave, st).

(** What happens to the recorder: [generate_frames] stores a frame, or a
    request to [/save_frame] comes in. *)
Inductive recorder_event : Type :=
| StoreFrame
| Save (req : save_request).

(** The answers given and the recorder after a series of events. *)
Fixpoint record (events : list recorder_event) (st : recorder)
    : list save_answer * recorder :=
  match events with
  | [] => ([], st)
  | StoreFrame :: events' =>
      record events' (Recorder (frame_count st) true (writes st))
  | Save req :: events' =>
      let '(answer, st') := save_frame req st in
      let '(answers, final) := record events' st' in
      (answer :: answers, final)
  end.

(** The indexes the answers "Saved frame n" name, and the indexes of the
    intrinsics files written. *)
Definition saved_indexes (answers : list save_answer) : list nat :=
  omap (λ a, match a with SavedFrame n => Some n | _ => None end) answers.

Definition np_save_indexes (ws : list file_write) : list nat :=
  omap (λ w, match w with NpSave n => Some n | _ => None end) ws.

Definition imwrite_indexes (ws : list file_write) : list nat :=
  omap (λ w, match w with ImWrite n => Some n | _ => None end) ws.

(** Requests that go well, one whose [np.save] fails, and one out of
    capture mode. *)
Definition save_fine : save_request :=
  SaveRequest true (Ok (Some (color_data small_color))) (Ok true) (Ok ()).
Definition save_np_fails : save_request :=
  SaveRequest true (Ok (Some (color_data small_color))) (Ok true)
              (Raise OtherException).
Definition save_not_capturing : save_request :=
  SaveRequest false (Ok (Some (color_data small_color))) (Ok true) (Ok ()).

(** ** [client.py]: a payload read back

    The branch of [PointCloudClient.receive_messages] for a binary
    message: [gzip.decompress(message)], then
    [json.loads(decompressed_data.decode('utf-8'))]. *)

(** The dict [point_cloud_data] the server builds, as a value. *)
Definition snapshot_dict (pc : point_cloud) : json :=
  JDict [("points", JList ((λ p, JList (JFloat <$> p)) <$> points pc));
         ("colors",
          JList ((λ c, JList ((λ n, JInt (Z.of_N n)) <$> c)) <$> colors pc));
         ("timestamp", JFloat (timestamp pc))].

(** The floats of a snapshot. *)
Definition numbers (pc : point_cloud) : list float :=
  concat (points pc) ++ [timestamp pc].

(** *** Python's [==]

    An [int] and a [float] are compared as the numbers they are, exactly;
    a [bool] is the [int] 0 or 1. *)
Definition int_eq_float (z : Z) (f : float) : bool :=
  match Prim2SF f with
  | S754_zero _ => (z =? 0)%Z
  | S754_finite sign m e =>
      let v := if sign then Z.neg m else Z.pos m in
      if (0 <=? e)%Z then (z =? v * 2 ^ e)%Z else (z * 2 ^ (- e) =? v)%Z
  | S754_infinity _ | S754_nan => false
  end.

Definition number_of (v : json) : option (Z + float) :=
  match v with
  | JBool b => Some (inl (Z.b2z b))
  | JInt z => Some (inl z)
  | JFloat f => Some (inr f)
  | _ => None
  end.

Definition number_eq (x y : Z + float) : bool :=
  match x, y with
  | inl a, inl b => (a =? b)%Z
  | inl a, inr g => int_eq_float a g
  | inr f, inl b => int_eq_float b f
  | inr f, inr g => (f =? g)%float
  end.

(** [a == b] for two values that share no object (between objects that
    are the same, the comparison of lists and dicts does not look at the
    values). Lists are equal item by item; dicts when they have the same
    keys, with equal values. *)
Fixpoint py_eq (a b : json) {struct a} : bool :=
  match a with
  | JNull => match b with JNull => true | _ => false end
  | JStr x => match b with JStr y => String.eqb x y | _ => false end
  | JList l =>
      match b with
      | JList l' =>
          (fix items (l l' : list json) {struct l} : bool :=
             match l, l' with
             | [], [] => true
             | x :: l, y :: l' => py_eq x y && items l l'
             | _, _ => false
             end) l l'
      | _ => false
      end
  | JDict d =>
      match b with
      | JDict d' =>
          Nat.eqb (length d) (length d') &&
          forallb (λ kv, match lookup_key kv.1 d with
                         | Some _ => true
                         | None => false
                         end) d' &&
          (fix members (d : list (string * json)) {struct d} : bool :=
             match d with
             | [] => true
             | (k, v) :: d =>
                 match lookup_key k d' with
                 | Some v' => py_eq v v'
                 | None => false
                 end && members d
             end) d
      | _ => false
      end
  | JBool _ | JInt _ | JFloat _ =>
      match number_of a, number_of b with
      | Some x, Some y => number_eq x y
      | _, _ => false
      end
  end.

(** *** [json.loads]

    A reader for JSON texts whose strings have no escapes (it refuses a
    backslash, which [json.loads] would read on); what a dict holds under
    a key that the text has twice is the last of the values. *)
Definition is_whitespace (c : ascii) : bool :=
  Ascii.eqb c " " || Ascii.eqb c "009" || Ascii.eqb c "010" || Ascii.eqb c "013".

Fixpoint skip_whitespace (s : list ascii) : list ascii :=
  match s with
  | [] => []
  | c :: s' => if is_whitespace c then skip_whitespace s' else s
  end.

(** A number or a constant goes on to the next comma, closing bracket or
    blank. *)
Definition ends_token (c : ascii) : bool :=
  Ascii.eqb c "," || Ascii.eqb c "]" || Ascii.eqb c "}" || is_whitespace c.

Fixpoint token (s : list ascii) : list ascii * list ascii :=
  match s with
  | [] => ([], [])
  | c :: s' =>
      if ends_token c then ([], s)
      else let '(t, rest) := token s' in (c :: t, rest)
  end.

(** The characters a value other than a number or a constant starts
    with. *)
Definition opens_value (c : ascii) : bool :=
  Ascii.eqb c "[" || Ascii.eqb c "{" || Ascii.eqb c "034".

(** An integer of the JSON grammar: an optional minus sign and digits,
    without a leading zero. *)
Definition natural_literal (t : list ascii) : option Z :=
  match t with
  | [] => None
  | c :: t' =>
      if Ascii.eqb c "0" then match t' with [] => Some 0%Z | _ :: _ => None end
      else digits_value 0 (N_of_ascii <$> t)
  end.

Definition int_literal (t : list ascii) : option Z :=
  match t with
  | c :: t' => if Ascii.eqb c "-" then Z.opp <$> natural_literal t'
               else natural_literal t
  | [] => None
  end.

(** A string, after its opening quote. *)
Fixpoint read_string (s : list ascii) : option (string * list ascii) :=
  match s with
  | [] => None
  | c :: s' =>
      if Ascii.eqb c "034" then Some (EmptyString, s')
      else if Ascii.eqb c "092" then None
      else '(str, rest) ← read_string s'; Some (String c str, rest)
  end.

(** A later value under a key wins. *)
Definition dict_cons (key : string) (v : json) (d : list (string * json))
    : list (string * json) :=
  match lookup_key key d with
  | Some _ => d
  | None => (key, v) :: d
  end.

Section Decoder.
(** [gzip.decompress], which raises on what is no gzip member. *)
Variable gzip_decompress : list byte → result (list byte).

(** The float [json.loads] reads from a token that is no integer: a
    number with a fraction or an exponent, or one of [NaN], [Infinity],
    [-Infinity]; [None] for any other token. *)
Variable float_of_text : string → option float.

Definition read_atom (t : list ascii) : option json :=
  match int_literal t with
  | Some z => Some (JInt z)
  | None =>
      match float_of_text (string_of_list_ascii t) with
      | Some f => Some (JFloat f)
      | None =>
          if String.eqb (string_of_list_ascii t) "null" then Some JNull
          else if String.eqb (string_of_list_ascii t) "true" then Some (JBool true)
          else if String.eqb (string_of_list_ascii t) "false" then Some (JBool false)
          else None
      end
  end.

(** A value and the text after it. The fuel bounds the depth of the
    calls; the length of the text is enough of it, as every call reads a
    character. *)
Fixpoint read_value (fuel : nat) (s : list ascii) {struct fuel}
    : option (json * list ascii) :=
  match fuel with
  | 0 => None
  | S fuel =>
      match skip_whitespace s with
      | [] => None
      | c :: s1 =>
          if Ascii.eqb c "[" then
            match skip_whitespace s1 with
            | [] => None
            | c1 :: s2 =>
                if Ascii.eqb c1 "]" then Some (JList [], s2)
                else '(l, rest) ← read_items fuel s1; Some (JList l, rest)
            end
          else if Ascii.eqb c "{" then
            match skip_whitespace s1 with
            | [] => None
            | c1 :: s2 =>
                if Ascii.eqb c1 "}" then Some (JDict [], s2)
                else '(d, rest) ← read_members fuel s1; Some (JDict d, rest)
            end
          else if Ascii.eqb c "034" then
            '(str, rest) ← read_string s1; Some (JStr str, rest)
          else
            let '(t, rest) := token (c :: s1) in
            v ← read_atom t; Some (v, rest)
      end
  end
with read_items (fuel : nat) (s : list ascii) {struct fuel}
    : option (list json * list ascii) :=
  match fuel with
  | 0 => None
  | S fuel =>
      '(v, rest) ← read_value fuel s;
      match skip_whitespace rest with
      | [] => None
      | c :: rest' =>
          if Ascii.eqb c "," then
            '(l, rest'') ← read_items fuel rest'; Some (v :: l, rest'')
          else if Ascii.eqb c "]" then Some ([v], rest')
          else None
      end
  end
with read_members (fuel : nat) (s : list ascii) {struct fuel}
    : option (list (string * json) * list ascii) :=
  match fuel with
  | 0 => None
  | S fuel =>
      match skip_whitespace s with
      | [] => None
      | c :: s1 =>
          if Ascii.eqb c "034" then
            '(key, rest) ← read_string s1;
            match skip_whitespace rest with
            | [] => None
            | c1 :: rest1 =>
                if Ascii.eqb c1 ":" then
                  '(v, rest2) ← read_value fuel rest1;
                  match skip_whitespace rest2 with
                  | [] => None
                  | c2 :: rest3 =>
                      if Ascii.eqb c2 "," then
                        '(d, rest4) ← read_members fuel rest3;
                        Some (dict_cons key v d, rest4)
                      else if Ascii.eqb c2 "}" then Some ([(key, v)], rest3)
                      else None
                  end
                else None
            end
          else None
      end
  end.

(** [json.loads(text)]: one value, and nothing but blanks after it. *)
Definition json_loads_text (text : string) : result json :=
  let s := list_ascii_of_string text in
  match read_value (length s) s with
  | Some (v, rest) =>
      match skip_whitespace rest with
      | [] => Ok v
      | _ :: _ => Raise JSONDecodeError
      end
  | None => Raise JSONDecodeError
  end.

(** Lines 51 and 52. A [str] is held as its UTF-8 bytes, so
    [decode('utf-8')] changes the type only (the UnicodeDecodeError for
    bytes that are no UTF-8 is left out). *)
Definition receive_binary (message : list byte) : result json :=
  decompressed_data ← gzip_decompress message;
  json_loads_text (string_of_list_byte decompressed_data).
End Decoder.

(** What the reader asks of the text of a float: it is not empty, it holds
    none of the characters that end a token or open another value, it is
    no integer, and it is read back as the float it was written for. *)
Definition float_reads_back (float_repr : float → string)
    (float_of_text : string → option float) (f : float) : Prop :=
  let t := list_ascii_of_string (float_repr f) in
  t ≠ [] ∧
  Forall (λ c, ends_token c = false ∧ opens_value c = false) t ∧
  int_literal t = None ∧
  float_of_text (float_repr f) = Some f.

(** A JSON array with the default separator, followed by [rest]: the
    items after the first, and the whole. *)
Fixpoint array_tail {A : Type} (enc : A → list ascii) (xs : list A)
    (rest : list ascii) : list ascii :=
  match xs with
  | [] => "]"%char :: rest
  | x :: xs' => ","%char :: " "%char :: enc x ++ array_tail enc xs' rest
  end.

Definition array_text {A : Type} (enc : A → list ascii) (xs : list A)
    (rest : list ascii) : list ascii :=
  "["%char ::
  match xs with
  | [] => "]"%char :: rest
  | x :: xs' => enc x ++ array_tail enc xs' rest
  end.

(** Stand-ins that know three floats: the texts [float.__repr__] gives
    0.0, 1.0 and NaN, and the floats read from them; and a gzip that
    stores its data as it is. *)
Definition repr_sample (f : float) : string :=
  if (f =? 1)%float then "1.0"
  else if (f =? 0)%float then "0.0"
  else "NaN".

Definition float_sample (s : string) : option float :=
  if String.eqb s "1.0" then Some 1%float
  else if String.eqb s "0.0" then Some 0%float
  else if String.eqb s "NaN" then Some nan
  else None.

Definition stored (data : list byte) : list byte := data.

Definition unstored (message : list byte) : result (list byte) :=
  match message with
  | x1f :: x8b :: x08 :: data => Ok data
  | _ => Raise OtherException
  end.

(** A calibration whose [fx] is 0: the pixel at [x = ppx] of [one_reading]
    gets the x coordinate 0 * z / 0. *)
Definition calibration_fx_0 : intrinsics := Intrinsics 0 600 320 240.

(** The point of the specification's example, with its color. *)
Definition unit_snapshot : point_cloud :=
  PointCloud [[0%float; 0%float; 1%float]] [[10%N; 20%N; 30%N]] 1%float.

(** * Properties *)

(** ** Loops *)

Lemma for_each_app {S X : Type} (xs ys : list X) (acc : S) body :
  for_each (xs ++ ys) acc body = acc' ← for_each xs acc body; for_each ys acc' body.
Proof.
  revert acc. induction xs as [|x xs IH]; intros acc; simpl; [done|].
  destruct (body acc x) as [acc'|e]; simpl; [apply IH|done].
Qed.

(** Two nested loops visit the pairs of their indices in row-major order. *)
Lemma for_each_nested {S X Y : Type} (ys : list Y) (xs : list X) (acc : S)
    (body : Y → S → X → result S) :
  for_each ys acc (λ acc y, for_each xs acc (body y)) =
  for_each (y ← ys; x ← xs; [(y, x)]) acc (λ acc p, body p.1 acc p.2).
Proof.
  revert acc. induction ys as [|y ys IH]; intros acc; [done|].
  cbn [for_each]. change (mbind ?f (y :: ys)) with (f y ++ mbind f ys).
  rewrite for_each_app.
  assert (Hrow : ∀ acc, for_each xs acc (body y) =
    for_each (x ← xs; [(y, x)]) acc (λ acc p, body p.1 acc p.2)).
  { clear. induction xs as [|x xs IHx]; intros acc; [done|].
    cbn. destruct (body y acc x); simpl; [apply IHx|done]. }
  rewrite <- Hrow. destruct (for_each xs acc (body y)); simpl; [apply IH|done].
Qed.

Lemma elem_of_range start stop step n :
  0 < step →
  n ∈ range start stop step ↔ ∃ k, n = start + k * step ∧ n < stop.
Proof.
  intros Hstep. unfold range. rewrite list_elem_of_fmap.
  set (q := (stop - start + (step - 1)) / step).
  assert (Hlo : q * step <= stop - start + (step - 1)).
  { rewrite Nat.mul_comm. apply Nat.Div0.mul_div_le. }
  assert (Hhi : stop - start + (step - 1) < (q + 1) * step).
  { rewrite Nat.mul_comm, Nat.add_1_r. apply Nat.mul_succ_div_gt. lia. }
  split; intros (k & -> & Hk); exists k; (split; [done|]).
  - apply elem_of_seq in Hk. nia.
  - apply elem_of_seq. nia.
Qed.

Lemma elem_of_sampled_pixels height width y x :
  (y, x) ∈ sampled_pixels height width ↔
  (∃ k, y = 2 * k) ∧ y < height ∧ (∃ k, x = 2 * k) ∧ x < width.
Proof.
  unfold sampled_pixels. rewrite list_elem_of_bind. split.
  - intros (y' & Hx & Hy). apply list_elem_of_bind in Hx as (x' & Hp & Hx).
    apply list_elem_of_singleton in Hp. injection Hp as -> ->.
    apply elem_of_range in Hy as (ky & -> & ?); [|lia].
    apply elem_of_range in Hx as (kx & -> & ?); [|lia].
    split_and!; [exists ky; lia|done|exists kx; lia|done].
  - intros ((ky & ->) & ? & (kx & ->) & ?). exists (2 * ky). split.
    + apply list_elem_of_bind. exists (2 * kx). split; [set_solver|].
      apply elem_of_range; [lia|]. exists kx. lia.
    + apply elem_of_range; [lia|]. exists ky. lia.
Qed.

(** ** The builder *)

Section BuilderFacts.
Variable self_intrinsics : option intrinsics.
Variable depth_image : ndarray N.
Variable bgr_image : ndarray pixel.
Variable depth_scale : float.

Let rgb_image : ndarray pixel :=
  NdArray (rows bgr_image) (cols bgr_image)
    (λ y x, let p := item bgr_image y x in Pixel (ch2 p) (ch1 p) (ch0 p)).
Let nonzero (p : nat * nat) : Prop := (item depth_image p.1 p.2 ≠ 0)%N.
Let usable (p : nat * nat) : Prop :=
  is_Some self_intrinsics ∧ covers bgr_image p.
Let inside (p : nat * nat) : Prop :=
  p.1 < rows depth_image ∧ p.2 < cols depth_image.

(** One pass through the body of the inner loop. *)
Lemma pixel_body_inside (y x : nat) (acc : cloud_acc) :
  inside (y, x) →
  pixel_body self_intrinsics depth_image rgb_image depth_scale y acc x =
  if decide (nonzero (y, x)) then
    match self_intrinsics with
    | Some i =>
        if decide (covers bgr_image (y, x)) then
          Ok (acc.1 ++ [unproject i depth_scale (item depth_image y x) y x],
              acc.2 ++ [rgb_at bgr_image y x])
        else Raise IndexError
    | None => Raise AttributeError
    end
  else Ok acc.
Proof.
  intros [Hy Hx]. cbn [fst snd] in *. unfold pixel_body, getitem.
  rewrite (bool_decide_eq_true_2 (y < rows depth_image ∧ x < cols depth_image)) by done.
  cbn [mbind result_bind].
  destruct (N.ltb_spec 0 (item depth_image y x)) as [Hpos|Hzero].
  - rewrite decide_True by (unfold nonzero; simpl; lia).
    unfold intrinsics_attr. destruct self_intrinsics as [i|]; [|done].
    cbn [mbind result_bind]. unfold covers. cbn [fst snd rows cols rgb_image].
    destruct (decide _) as [Hc|Hc].
    + rewrite bool_decide_eq_true_2 by done. done.
    + rewrite bool_decide_eq_false_2 by done. done.
  - rewrite decide_False; [done|]. unfold nonzero; simpl; lia.
Qed.

(** The loop over any run of pixels of the depth image: it ends normally
    exactly when every pixel with a depth reading is usable, and then it
    has appended one point and one color for each of them, in order. *)
Lemma pixel_loop (l : list (nat * nat)) (acc : cloud_acc) :
  Forall inside l →
  match for_each l acc
          (λ acc p, pixel_body self_intrinsics depth_image rgb_image
                      depth_scale p.1 acc p.2) with
  | Ok acc' =>
      Forall usable (filter nonzero l) ∧
      ∀ i, self_intrinsics = Some i ∨ filter nonzero l = [] →
        acc' =
        (acc.1 ++ ((λ p, unproject i depth_scale (item depth_image p.1 p.2) p.1 p.2)
                     <$> filter nonzero l),
         acc.2 ++ ((λ p, rgb_at bgr_image p.1 p.2) <$> filter nonzero l))
  | Raise _ => ¬ Forall usable (filter nonzero l)
  end.
Proof.
  intros Hin. revert acc.
  induction Hin as [|[y x] l Hyx _ IH]; intros acc.
  { simpl. split; [constructor|]. intros i _. simpl.
    rewrite !app_nil_r. by destruct acc. }
  cbn [for_each fst snd]. rewrite (pixel_body_inside y x acc Hyx).
  destruct (decide (nonzero (y, x))) as [Hnz|Hnz].
  - rewrite (filter_cons_True _ _ _ Hnz).
    destruct self_intrinsics as [i|] eqn:Hintr.
    + destruct (decide (covers bgr_image (y, x))) as [Hc|Hc]; cbn [mbind result_bind].
      * specialize (IH (acc.1 ++ [unproject i depth_scale (item depth_image y x) y x],
                        acc.2 ++ [rgb_at bgr_image y x])).
        destruct (for_each l _ _) as [acc'|e].
        -- destruct IH as [IHu IHe]. split.
           { constructor; [|done]. split; [by eexists|done]. }
           intros i' [[= <-]|?]; [|done].
           rewrite (IHe i) by (by left). cbn. by rewrite <- !app_assoc.
        -- intros Hall. apply IH. by inversion Hall.
      * intros Hall. inversion Hall as [|?? [_ ?]]; subst. done.
    + cbn. intros Hall. inversion Hall as [|?? [[? Hs] _]]; subst. done.
  - rewrite (filter_cons_False _ _ _ Hnz). cbn [mbind result_bind]. apply IH.
Qed.
End BuilderFacts.

Lemma sampled_pixels_inside (depth_image : ndarray N) :
  Forall (λ p, p.1 < rows depth_image ∧ p.2 < cols depth_image)
         (sampled_pixels (rows depth_image) (cols depth_image)).
Proof.
  apply Forall_forall. intros [y x] Hp.
  apply elem_of_sampled_pixels in Hp as (_ & ? & _ & ?). done.
Qed.

(** The builder, as a whole: it answers [None] exactly on the frame pairs
    that are not [accepted], and otherwise the snapshot [cloud_of]. *)
Lemma generate_point_cloud_spec self_intrinsics df cf now :
  match generate_point_cloud self_intrinsics df cf now with
  | Some pc =>
      accepted self_intrinsics df cf ∧
      ∀ i, self_intrinsics = Some i ∨ valid_pixels (depth_data df) = [] →
        pc = cloud_of i df cf now
  | None => ¬ accepted self_intrinsics df cf
  end.
Proof.
  unfold generate_point_cloud, generate_point_cloud_body, cvtColor_BGR2RGB, accepted.
  case_bool_decide as Hempty; cbn [mbind result_bind].
  { intros [? _]. done. }
  rewrite for_each_nested.
  pose proof (pixel_loop self_intrinsics (depth_data df) (color_data cf)
                (get_units df) _ ([], []) (sampled_pixels_inside (depth_data df))) as Hloop.
  fold (sampled_pixels (rows (depth_data df)) (cols (depth_data df))).
  destruct (for_each _ _ _) as [acc|e]; cbn [mbind result_bind].
  - destruct Hloop as [Hall Heq]. split; [done|].
    intros i Hi. rewrite (Heq i Hi). done.
  - intros [_ Hall]. done.
Qed.

Lemma generate_point_cloud_accepted i df cf now :
  accepted (Some i) df cf →
  generate_point_cloud (Some i) df cf now = Some (cloud_of i df cf now).
Proof.
  intros Hacc. pose proof (generate_point_cloud_spec (Some i) df cf now) as H.
  destruct (generate_point_cloud _ _ _ _) as [pc|]; [|done].
  destruct H as [_ H]. rewrite (H i); [done|by left].
Qed.

Lemma generate_point_cloud_is_Some self_intrinsics df cf now :
  is_Some (generate_point_cloud self_intrinsics df cf now) ↔
  accepted self_intrinsics df cf.
Proof.
  pose proof (generate_point_cloud_spec self_intrinsics df cf now) as H.
  destruct (generate_point_cloud _ _ _ _) as [pc|].
  - split; [intros _; apply H|by eexists].
  - split; [by intros [??]|done].
Qed.

Lemma NoDup_range start stop step : 0 < step → NoDup (range start stop step).
Proof.
  intros Hstep. unfold range. apply NoDup_fmap_2; [|apply NoDup_seq].
  intros k1 k2 Hk. nia.
Qed.

Lemma NoDup_sampled_pixels height width : NoDup (sampled_pixels height width).
Proof.
  unfold sampled_pixels. apply NoDup_bind.
  - intros y1 y2 p _ _ Hp1 Hp2.
    apply list_elem_of_bind in Hp1 as (x1 & ->%list_elem_of_singleton & _).
    apply list_elem_of_bind in Hp2 as (x2 & [= ? ?]%list_elem_of_singleton & _).
    done.
  - intros y _. apply NoDup_bind.
    + intros x1 x2 p _ _ ->%list_elem_of_singleton [= ?]%list_elem_of_singleton. done.
    + intros x _. apply NoDup_singleton.
    + apply NoDup_range. lia.
  - apply NoDup_range. lia.
Qed.

Lemma elem_of_valid_pixels (depth_image : ndarray N) y x :
  (y, x) ∈ valid_pixels depth_image ↔
  (∃ k, y = 2 * k) ∧ y < rows depth_image ∧
  (∃ k, x = 2 * k) ∧ x < cols depth_image ∧
  item depth_image y x ≠ 0%N.
Proof.
  unfold valid_pixels. rewrite list_elem_of_filter, elem_of_sampled_pixels.
  simpl. tauto.
Qed.

(** No sampled pixel carries a depth reading: nothing is appended. *)
Lemma valid_pixels_nil (depth_image : ndarray N) :
  (∀ y x, (y, x) ∈ sampled_pixels (rows depth_image) (cols depth_image) →
          item depth_image y x = 0%N) →
  valid_pixels depth_image = [].
Proof.
  intros Hzero. unfold valid_pixels.
  induction (sampled_pixels _ _) as [|[y x] l IH]; [done|].
  rewrite filter_cons_False.
  - apply IH. intros y' x' Hin. apply Hzero. by right.
  - simpl. intros Hnz. apply Hnz, Hzero. by left.
Qed.

(** C1. For every depth grid, color grid, depth scale and calibration, the
    builder visits the pixels (y, x) with y and x multiples of the stride 2
    inside the depth grid, each once, and for each of them whose depth is
    not 0 it appends the point [(x-ppx)*z/fx, (y-ppy)*z/fy, z] with
    z = depth*scale, in binary64 arithmetic, together with that pixel's
    color as [r, g, b]; the snapshot holds exactly these points and colors,
    in the order of the visit. With fx = fy = 600, ppx = 320, ppy = 240 and
    depth scale 0.001, the pixel x = 320, y = 240 with raw depth 1000
    yields the point [0.0, 0.0, 1.0]. *)
Theorem generate_point_cloud_unprojects :
  (∀ (i : intrinsics) (df : depth_frame) (cf : color_frame) (now : float),
     generate_point_cloud (Some i) df cf now =
     if decide (accepted (Some i) df cf) then
       Some (PointCloud
         ((λ p, let z := (float_of_N (item (depth_data df) p.1 p.2) * get_units df)%float in
                [ ((float_of_nat p.2 - ppx i) * z / fx i)%float;
                  ((float_of_nat p.1 - ppy i) * z / fy i)%float;
                  z ]) <$> valid_pixels (depth_data df))
         ((λ p, let c := item (color_data cf) p.1 p.2 in [ch2 c; ch1 c; ch0 c])
            <$> valid_pixels (depth_data df))
         now)
     else None) ∧
  (∀ (d : ndarray N) (y x : nat),
     (y, x) ∈ valid_pixels d ↔
     (∃ k, y = 2 * k) ∧ y < rows d ∧ (∃ k, x = 2 * k) ∧ x < cols d ∧
     item d y x ≠ 0%N) ∧
  (∀ d : ndarray N, NoDup (valid_pixels d)) ∧
  (∀ (df : depth_frame) (cf : color_frame) (now : float) (pc : point_cloud),
     get_units df = millimeters →
     240 < rows (depth_data df) → 320 < cols (depth_data df) →
     item (depth_data df) 240 320 = 1000%N →
     generate_point_cloud (Some calibration_600) df cf now = Some pc →
     ∃ k, points pc !! k = Some [0; 0; 1]%float ∧
          colors pc !! k = Some (rgb_at (color_data cf) 240 320)).
Proof.
  assert (Hgen : ∀ i df cf now,
    generate_point_cloud (Some i) df cf now =
    if decide (accepted (Some i) df cf) then Some (cloud_of i df cf now) else None).
  { intros i df cf now. destruct (decide _) as [Hacc|Hacc].
    - by apply generate_point_cloud_accepted.
    - pose proof (generate_point_cloud_spec (Some i) df cf now) as H.
      destruct (generate_point_cloud _ _ _ _); [by destruct H|done]. }
  split_and!.
  - apply Hgen.
  - apply elem_of_valid_pixels.
  - intros d. apply NoDup_filter, NoDup_sampled_pixels.
  - intros df cf now pc Hunits Hrows Hcols Hdepth Hpc.
    rewrite Hgen in Hpc. destruct (decide _); [|done]. injection Hpc as <-.
    assert (Hin : (240, 320) ∈ valid_pixels (depth_data df)).
    { apply elem_of_valid_pixels. rewrite Hdepth.
      split_and!; [by exists 120|done|by exists 160|done|done]. }
    apply list_elem_of_lookup in Hin as [k Hk]. exists k.
    unfold cloud_of. cbn [points colors]. rewrite !list_lookup_fmap, Hk.
    cbn [fmap option_fmap option_map fst snd]. rewrite Hdepth, Hunits. done.
Qed.

(** C1 on the frame pair [one_reading], [plain_color] under the calibration
    of the example: the point [0.0, 0.0, 1.0], with the color of its pixel. *)
Lemma generate_point_cloud_unprojects_witness :
  ∃ k, points (cloud_of calibration_600 one_reading plain_color 0) !! k
         = Some [0; 0; 1]%float ∧
       colors (cloud_of calibration_600 one_reading plain_color 0) !! k
         = Some [10; 20; 30]%N.
Proof.
  apply (proj2 (proj2 (proj2 generate_point_cloud_unprojects))
           one_reading plain_color 0%float).
  - reflexivity.
  - simpl; lia.
  - simpl; lia.
  - reflexivity.
  - rewrite (proj1 generate_point_cloud_unprojects).
    rewrite decide_True; [reflexivity|]. vm_compute. 
    split; [intros [H|H]; discriminate H|].
    repeat constructor; eexists; reflexivity.
Defined.

(** C2. For every depth/color grid pair the builder accepts, the snapshot
    has as many points as colors; the point and the color at an index come
    from the same sampled pixel, whose depth is not 0 (samples of depth 0
    are left out); and when the depth grid is 0 everywhere the snapshot is
    empty. *)
Theorem snapshot_points_match_colors
    (self_intrinsics : option intrinsics) (df : depth_frame)
    (cf : color_frame) (now : float) (pc : point_cloud) :
  generate_point_cloud self_intrinsics df cf now = Some pc →
  length (points pc) = length (colors pc) ∧
  (∀ k pt, points pc !! k = Some pt →
     ∃ y x,
       valid_pixels (depth_data df) !! k = Some (y, x) ∧
       (∃ j, y = 2 * j) ∧ y < rows (depth_data df) ∧
       (∃ j, x = 2 * j) ∧ x < cols (depth_data df) ∧
       item (depth_data df) y x ≠ 0%N ∧
       colors pc !! k = Some (rgb_at (color_data cf) y x) ∧
       ∀ i, self_intrinsics = Some i →
            pt = unproject i (get_units df) (item (depth_data df) y x) y x) ∧
  ((∀ y x, item (depth_data df) y x = 0%N) →
     points pc = [] ∧ colors pc = []).
Proof.
  intros Hpc. pose proof (generate_point_cloud_spec self_intrinsics df cf now) as H.
  rewrite Hpc in H. destruct H as [[_ Hall] Heq].
  assert (Hshape : ∃ i, pc = cloud_of i df cf now ∧
            (self_intrinsics = Some i ∨ valid_pixels (depth_data df) = [])).
  { destruct self_intrinsics as [i|].
    - exists i. split; [apply Heq|]; by left.
    - assert (valid_pixels (depth_data df) = []) as Hnil.
      { destruct (valid_pixels _) as [|p l]; [done|].
        inversion Hall as [|?? [[? ?] _]]; done. }
      exists calibration_600. split; [apply Heq|]; by right. }
  destruct Hshape as (i & -> & Hi). unfold cloud_of. cbn [points colors].
  split_and!.
  - by rewrite !length_fmap.
  - intros k pt Hk. rewrite list_lookup_fmap in Hk.
    destruct (valid_pixels (depth_data df) !! k) as [[y x]|] eqn:Hpx; [|done].
    injection Hk as <-. exists y, x.
    pose proof (proj1 (elem_of_valid_pixels _ y x)
                  (proj2 (list_elem_of_lookup _ _) (ex_intro _ k Hpx)))
      as (? & ? & ? & ? & ?).
    split_and!; try done.
    + by rewrite list_lookup_fmap, Hpx.
    + intros i' Hi'. destruct Hi as [Hi|Hnil].
      * rewrite Hi in Hi'. by injection Hi' as <-.
      * by rewrite Hnil in Hpx.
  - intros Hzero. rewrite valid_pixels_nil; [done|]. intros y x _. apply Hzero.
Qed.

(** C2 on the frame pair [small_depth], [small_color]. *)
Lemma snapshot_points_match_colors_witness :
  length (points (cloud_of calibration_600 small_depth small_color 0)) =
  length (colors (cloud_of calibration_600 small_depth small_color 0)).
Proof.
  apply (snapshot_points_match_colors (Some calibration_600) small_depth
           small_color 0%float).
  vm_compute. reflexivity.
Defined.

(** ** The fan-out *)

Lemma send_to_attempts data b r client :
  attempts (send_to data b r client) =
  attempts r ++ [Attempt client data (clock r) (clock r + latency b) (outcome b)].
Proof. unfold send_to. by destruct (outcome b) as [|[]]. Qed.

Lemma send_to_clock data b r client :
  clock (send_to data b r client) = clock r + latency b.
Proof. unfold send_to. by destruct (outcome b) as [|[]]. Qed.

Lemma send_to_disconnected data b r client :
  disconnected_clients (send_to data b r client) =
  if decide (outcome b = Delivered) then disconnected_clients r
  else disconnected_clients r ∪ {[client]}.
Proof. unfold send_to. by destruct (outcome b) as [|[]]. Qed.

(** The loop, whatever the sends do, goes through all its members. *)
Lemma send_loop_spec data link members r :
  attempts (send_loop data link members r) = attempts r ++ timeline data link (clock r) members ∧
  clock (send_loop data link members r) = clock r + sum_list (latency ∘ link <$> members) ∧
  disconnected_clients (send_loop data link members r) =
    disconnected_clients r ∪ list_to_set (failing link members).
Proof.
  revert r. induction members as [|client members IH]; intros r.
  { cbn. rewrite app_nil_r. split_and!; [done|lia|set_solver]. }
  cbn [send_loop foldl]. destruct (IH (send_to data (link client) r client)) as (Ha & Hc & Hd).
  fold (send_loop data link members (send_to data (link client) r client)).
  rewrite Ha, Hc, Hd, send_to_attempts, send_to_clock, send_to_disconnected.
  split_and!.
  - cbn [timeline]. by rewrite <- app_assoc.
  - cbn. lia.
  - unfold failing. destruct (decide (outcome (link client) = Delivered)) as [Hok|Hko].
    + rewrite filter_cons_False by (by intros ?). done.
    + rewrite filter_cons_True by done. set_solver.
Qed.

Lemma timeline_recipients data link t0 members :
  recipient <$> timeline data link t0 members = members.
Proof.
  revert t0. induction members as [|c members IH]; intros t0; [done|].
  cbn. by rewrite IH.
Qed.

(** The send at position [k] starts when the [k] sends before it are over. *)
Lemma timeline_lookup data link t0 members k client :
  members !! k = Some client →
  timeline data link t0 members !! k =
  Some (Attempt client data
          (t0 + sum_list (latency ∘ link <$> take k members))
          (t0 + sum_list (latency ∘ link <$> take k members) + latency (link client))
          (outcome (link client))).
Proof.
  revert t0 k. induction members as [|c members IH]; intros t0 k Hk; [done|].
  destruct k as [|k].
  - injection Hk as ->. cbn. by rewrite Nat.add_0_r.
  - cbn in Hk. cbn [timeline take fmap list_fmap sum_list lookup list_lookup].
    rewrite (IH _ _ Hk). unfold id, compose. f_equal. f_equal; lia.
Qed.

Lemma prune_attempts clients r : attempts (prune clients r).2 = attempts r.
Proof. unfold prune. cbn. by destruct (decide _). Qed.

Lemma prune_clock clients r : clock (prune clients r).2 = clock r.
Proof. unfold prune. cbn. by destruct (decide _). Qed.

Lemma prune_disconnected clients r :
  disconnected_clients (prune clients r).2 = disconnected_clients r.
Proof. unfold prune. cbn. by destruct (decide _). Qed.

(** The whole block under the lock. *)
Lemma fan_out_spec data link clients :
  (fan_out data link clients).1 = clients ∖ list_to_set (failing link (elements clients)) ∧
  attempts (fan_out data link clients).2 = timeline data link 0 (elements clients) ∧
  clock (fan_out data link clients).2 = sum_list (latency ∘ link <$> elements clients) ∧
  disconnected_clients (fan_out data link clients).2 =
    list_to_set (failing link (elements clients)).
Proof.
  unfold fan_out.
  destruct (send_loop_spec data link (elements clients) round_start) as (Ha & Hc & Hd).
  rewrite prune_attempts, prune_clock, prune_disconnected, Ha, Hc, Hd.
  cbn. split_and!; [f_equal|done|done|]; set_solver.
Qed.

Lemma elem_of_failing link members client :
  client ∈ failing link members ↔
  client ∈ members ∧ outcome (link client) ≠ Delivered.
Proof. unfold failing. rewrite list_elem_of_filter. tauto. Qed.

(** ** The builder's error result, and the tick around it *)

(** C9 as the specification words it fails: the color image below is
    larger than the depth image, and the builder answers a snapshot. *)
Lemma shape_mismatch_without_error :
  ¬ (∀ self_intrinsics df cf now,
       shape_mismatch df cf ∨ self_intrinsics = None →
       generate_point_cloud self_intrinsics df cf now = None).
Proof.
  intros H.
  specialize (H (Some calibration_600) small_depth large_color 0%float).
  assert (Hsome : is_Some (generate_point_cloud (Some calibration_600)
                             small_depth large_color 0)).
  { apply generate_point_cloud_is_Some. vm_compute.
    split; [intros [?|?]; discriminate|].
    repeat constructor; try (eexists; reflexivity); lia. }
  rewrite H in Hsome; [by destruct Hsome|]. left. left. simpl. lia.
Qed.

(** Absent calibration goes unnoticed as well, when no sampled pixel
    carries a depth reading. *)
Example no_calibration_without_error :
  generate_point_cloud None no_reading plain_color 0 = Some (PointCloud [] [] 0).
Proof. vm_compute. reflexivity. Qed.

(** C9, as the code has it. The builder never raises to its caller: it
    answers the error result None exactly when the color image is empty,
    or some sampled pixel with depth not 0 lies outside the color image or
    is met while calibration is absent. (A shape mismatch, or absent
    calibration, that no such pixel runs into yields a snapshot.) The
    caller treats the error result as skipping the tick: nothing is sent
    and the registry is as before. *)
Theorem generate_point_cloud_error_result
    (self_intrinsics : option intrinsics) (df : depth_frame)
    (cf : color_frame) (now : float) :
  (generate_point_cloud self_intrinsics df cf now = None ↔
     (rows (color_data cf) = 0 ∨ cols (color_data cf) = 0) ∨
     ∃ y x, (∃ k, y = 2 * k) ∧ y < rows (depth_data df) ∧
            (∃ k, x = 2 * k) ∧ x < cols (depth_data df) ∧
            item (depth_data df) y x ≠ 0%N ∧
            (self_intrinsics = None ∨
             ¬ (y < rows (color_data cf) ∧ x < cols (color_data cf)))) ∧
  (∀ float_repr gzip_rest link clients,
     generate_point_cloud self_intrinsics df cf now = None →
     stream_iteration float_repr gzip_rest self_intrinsics (Some df) (Some cf)
       now link clients = (clients, NothingSent)).
Proof.
  split.
  - pose proof (generate_point_cloud_spec self_intrinsics df cf now) as H.
    split.
    + intros Hnone. rewrite Hnone in H. unfold accepted in H.
      apply not_and_l in H as [Hempty|Hbad]; [left; by apply dec_stable|right].
      apply not_Forall_Exists in Hbad; [|apply _].
      apply Exists_exists in Hbad as ([y x] & Hin & Hbad).
      apply elem_of_valid_pixels in Hin as (? & ? & ? & ? & ?).
      exists y, x. split_and!; try done.
      apply not_and_l in Hbad as [Hnone'|Hout]; [left|by right].
      destruct self_intrinsics; [|done]. exfalso. apply Hnone'. by eexists.
    + intros Hcause. destruct (generate_point_cloud _ _ _ _) as [pc|]; [|done].
      exfalso. destruct H as [[Hfull Hall] _].
      destruct Hcause as [Hempty|(y & x & Hy & ? & Hx & ? & ? & Hbad)]; [done|].
      assert (Hin : (y, x) ∈ valid_pixels (depth_data df))
        by (by apply elem_of_valid_pixels).
      rewrite Forall_forall in Hall. destruct (Hall _ Hin) as [Hsome Hcov].
      destruct Hbad as [->|Hout]; [by destruct Hsome|by apply Hout].
  - intros float_repr gzip_rest link clients Hnone.
    unfold stream_iteration. by rewrite Hnone.
Qed.

(** C9, as the code has it, without calibration: the first sampled pixel
    of [small_depth] carries a depth reading, and the answer is None. *)
Lemma generate_point_cloud_error_result_witness :
  generate_point_cloud None small_depth small_color 0 = None.
Proof.
  apply (proj1 (generate_point_cloud_error_result None small_depth small_color 0)).
  right. exists 0, 0. split_and!.
  - by exists 0.
  - simpl; lia.
  - by exists 0.
  - simpl; lia.
  - simpl; discriminate.
  - by left.
Defined.

(** A tick whose builder gives a snapshot fans its payload out. *)
Lemma stream_iteration_fans_out float_repr gzip_rest self_intrinsics df cf now
    link clients pc :
  generate_point_cloud self_intrinsics df cf now = Some pc →
  let compressed_data :=
    gzip_compress gzip_rest
      (list_byte_of_string (json_dumps_point_cloud float_repr pc)) in
  stream_iteration float_repr gzip_rest self_intrinsics (Some df) (Some cf)
    now link clients
  = ((fan_out compressed_data link clients).1,
     FannedOut compressed_data (fan_out compressed_data link clients).2).
Proof.
  intros Hgen data. unfold stream_iteration, compress_point_cloud.
  rewrite Hgen. fold data. unfold data at 1, gzip_compress at 1.
  cbn [nonempty_bytes]. by destruct (fan_out data link clients).
Qed.



(** X12. In a round that runs to its end (the block under the lock taken
    as a whole: no handler comes to the lock while it is in progress), a
    member whose send raises (closed connection or any other error) is put
    into [disconnected_clients] during the loop and is out of the registry
    once the round is over; the loop all the same makes its one send to
    every member, each send going the way its own connection makes it go,
    and the members whose send arrives stay registered. *)
Theorem failed_send_is_isolated
    (data : list byte) (link : conn → send_behaviour) (clients : gset conn)
    (client : conn) (e : exn) :
  client ∈ clients →
  outcome (link client) = Raised e →
  client ∈ disconnected_clients (send_loop data link (elements clients) round_start) ∧
  (client ∉ (fan_out data link clients).1) ∧
  recipient <$> attempts (fan_out data link clients).2 = elements clients ∧
  (∀ other, other ∈ clients →
     ∃ a, a ∈ attempts (fan_out data link clients).2 ∧ recipient a = other ∧
          payload a = data ∧ went a = outcome (link other)) ∧
  (∀ other, other ∈ clients → outcome (link other) = Delivered →
     other ∈ (fan_out data link clients).1).
Proof.
  intros Hin Hraise.
  destruct (fan_out_spec data link clients) as (Hc & Ha & _ & Hd).
  destruct (send_loop_spec data link (elements clients) round_start) as (_ & _ & Hd').
  assert (Hfail : client ∈ failing link (elements clients)).
  { apply elem_of_failing. split; [by apply elem_of_elements|by rewrite Hraise]. }
  split_and!.
  - rewrite Hd'. set_solver.
  - rewrite Hc. set_solver.
  - by rewrite Ha, timeline_recipients.
  - intros other Hother.
    apply elem_of_elements, list_elem_of_lookup in Hother as [k Hk].
    eexists. rewrite Ha. split; [|split_and!].
    + apply list_elem_of_lookup. exists k. by apply timeline_lookup.
    + done.
    + done.
    + done.
  - intros other Hother Hok. rewrite Hc. apply elem_of_difference. split; [done|].
    rewrite elem_of_list_to_set, elem_of_failing. intros [_ Hne]. done.
Qed.

(** X12 on three clients, the send to client 2 of which breaks. *)
Lemma failed_send_is_isolated_witness :
  (2%N ∉ (fan_out sample_payload link_2_broken three_clients).1) ∧
  1%N ∈ (fan_out sample_payload link_2_broken three_clients).1 ∧
  3%N ∈ (fan_out sample_payload link_2_broken three_clients).1.
Proof.
  assert (Hin : ∀ c : conn, c = 1%N ∨ c = 2%N ∨ c = 3%N → c ∈ three_clients).
  { intros c. unfold three_clients. set_solver. }
  destruct (failed_send_is_isolated sample_payload link_2_broken three_clients 2%N
              ConnectionClosed)
    as (_ & Hout & _ & _ & Hstay).
  - apply Hin. auto.
  - reflexivity.
  - split; [exact Hout|]. split; apply Hstay; try reflexivity; apply Hin; auto.
Defined.




(** ** The control channel *)

Lemma eq_str_true v s : eq_str v s = true ↔ v = JStr s.
Proof.
  destruct v; simpl; try (split; [discriminate|discriminate]).
  rewrite String.eqb_eq. split; [by intros ->|by intros [= ->]].
Qed.

Section ControlChannelFacts.
Variable json_loads : message → result json.
Variable client_id : conn.

Lemma on_message_invalid_json pong m :
  json_loads m = Raise JSONDecodeError →
  on_message json_loads client_id pong m = Ok ([], [InvalidJSON client_id]).
Proof. intros H. unfold on_message, message_try. by rewrite H. Qed.

Lemma on_message_load_error pong m e :
  json_loads m = Raise e → e ≠ JSONDecodeError →
  on_message json_loads client_id pong m = Ok ([], [ErrorHandlingMessage e]).
Proof. intros H He. unfold on_message, message_try. rewrite H. by destruct e. Qed.

Lemma on_message_not_object pong m data :
  json_loads m = Ok data → (∀ d, data ≠ JDict d) →
  on_message json_loads client_id pong m
  = Ok ([], [ErrorHandlingMessage AttributeError]).
Proof.
  intros H Hd. unfold on_message, message_try. rewrite H.
  destruct data; try done. by destruct (Hd d).
Qed.

Lemma on_message_ping m d :
  json_loads m = Ok (JDict d) → lookup_key "type" d = Some (JStr "ping") →
  on_message json_loads client_id Delivered m = Ok ([Text pong_msg], []).
Proof.
  intros H Hk. unfold on_message, message_try. rewrite H. cbn. by rewrite Hk.
Qed.

Lemma on_message_ping_send_fails m d e :
  json_loads m = Ok (JDict d) → lookup_key "type" d = Some (JStr "ping") →
  ∃ line, on_message json_loads client_id (Raised e) m = Ok ([], [line]).
Proof.
  intros H Hk. unfold on_message, message_try. rewrite H. cbn. rewrite Hk. cbn.
  destruct e; eauto.
Qed.

Lemma on_message_other_object pong m d :
  json_loads m = Ok (JDict d) → lookup_key "type" d ≠ Some (JStr "ping") →
  on_message json_loads client_id pong m = Ok ([], []).
Proof.
  intros H Hk. unfold on_message, message_try. rewrite H. cbn.
  destruct (eq_str _ _) eqn:Hping; [|done].
  apply eq_str_true in Hping. exfalso. apply Hk.
  destruct (lookup_key "type" d); [by rewrite <- Hping|done].
Qed.

(** The body of the message loop ends normally on every message. *)
Lemma on_message_total pong m :
  ∃ sent lines, on_message json_loads client_id pong m = Ok (sent, lines) ∧
                (sent = [] ∨ sent = [Text pong_msg]).
Proof.
  destruct (json_loads m) as [data|e] eqn:Hload.
  - destruct data as [| | | | |l|d];
      try (eexists _, _; split; [by eapply on_message_not_object|by left]).
    destruct (eq_str (default JNull (lookup_key "type" d)) "ping") eqn:Hping.
    + apply eq_str_true in Hping.
      assert (Hk : lookup_key "type" d = Some (JStr "ping")).
      { destruct (lookup_key "type" d); [by rewrite <- Hping|done]. }
      destruct pong as [|e].
      * eexists _, _. split; [by eapply on_message_ping|by right].
      * destruct (on_message_ping_send_fails m d e Hload Hk) as [line Hl].
        eexists _, _. split; [exact Hl|by left].
    + eexists _, _. split; [|by left]. eapply on_message_other_object; [done|].
      intros Hk. rewrite Hk in Hping. done.
  - destruct (decide (e = JSONDecodeError)) as [->|Hne].
    + eexists _, _. split; [by apply on_message_invalid_json|by left].
    + eexists _, _. split; [by apply on_message_load_error|by left].
Qed.

(** In the transition system: the handler stays in its loop. *)
Lemma step_receive s pong m sent lines :
  handlers s client_id = Serving →
  on_message json_loads client_id pong m = Ok (sent, lines) →
  ∃ s', step json_loads s (Receive client_id m pong) = Some s' ∧
        handlers s' client_id = Serving ∧
        clients s' = clients s ∧
        wire s' client_id = wire s client_id ++ sent.
Proof.
  intros Hs Hm. unfold step. rewrite Hs, Hm. eexists. split_and!; try done.
  cbn. unfold hand. by rewrite fn_lookup_insert.
Qed.
End ControlChannelFacts.

(** C8 as the specification words it fails: an object of a type the
    server does not know is dropped without a line in the log. *)
Lemma unrecognized_message_not_logged :
  ¬ (∀ json_loads client_id pong m,
       (∀ d, json_loads m = Ok (JDict d) →
             lookup_key "type" d ≠ Some (JStr "ping")) →
       ∃ lines, on_message json_loads client_id pong m = Ok ([], lines) ∧
                lines ≠ []).
Proof.
  intros H. destruct (H loads_sample 1%N Delivered hello_text) as (lines & Heq & Hne).
  - intros d Hd. vm_compute in Hd. injection Hd as <-. vm_compute. discriminate.
  - vm_compute in Heq. injection Heq as <-. done.
Qed.

(** C8, as the code has it. Whatever a client sends, the body of the
    message loop ends normally, so the loop goes on and the connection
    stays open and registered; it hands the connection at most one frame,
    the pong. A liveness request (an object whose type is 'ping') yields
    exactly one pong when its send goes through. Text that is not JSON is
    logged as invalid JSON and ignored; a message that fails to load
    otherwise, or is JSON but no object, is logged as an error and
    ignored; an object of any other type is ignored without a log line. *)
Theorem on_message_never_raises
    (json_loads : message → result json) (client_id : conn)
    (pong : send_outcome) (m : message) :
  ∃ sent lines,
    on_message json_loads client_id pong m = Ok (sent, lines) ∧
    (sent = [] ∨ sent = [Text pong_msg]) ∧
    (∀ d, json_loads m = Ok (JDict d) →
          lookup_key "type" d = Some (JStr "ping") → pong = Delivered →
          sent = [Text pong_msg] ∧ lines = []) ∧
    (json_loads m = Raise JSONDecodeError →
       sent = [] ∧ lines = [InvalidJSON client_id]) ∧
    (∀ e, json_loads m = Raise e → e ≠ JSONDecodeError →
          sent = [] ∧ lines = [ErrorHandlingMessage e]) ∧
    (∀ data, json_loads m = Ok data → (∀ d, data ≠ JDict d) →
             sent = [] ∧ lines = [ErrorHandlingMessage AttributeError]) ∧
    (∀ d, json_loads m = Ok (JDict d) →
          lookup_key "type" d ≠ Some (JStr "ping") →
          sent = [] ∧ lines = []) ∧
    (∀ s, handlers s client_id = Serving →
       ∃ s', step json_loads s (Receive client_id m pong) = Some s' ∧
             handlers s' client_id = Serving ∧
             clients s' = clients s ∧
             wire s' client_id = wire s client_id ++ sent).
Proof.
  destruct (on_message_total json_loads client_id pong m)
    as (sent & lines & Heq & Hsent).
  exists sent, lines. split_and!; try done.
  - intros d Hd Hk ->. rewrite (on_message_ping _ _ _ _ Hd Hk) in Heq.
    by injection Heq as <- <-.
  - intros H. rewrite (on_message_invalid_json _ _ _ _ H) in Heq.
    by injection Heq as <- <-.
  - intros e H He. rewrite (on_message_load_error _ _ _ _ _ H He) in Heq.
    by injection Heq as <- <-.
  - intros data H Hd. rewrite (on_message_not_object _ _ _ _ _ H Hd) in Heq.
    by injection Heq as <- <-.
  - intros d H Hk. rewrite (on_message_other_object _ _ _ _ _ H Hk) in Heq.
    by injection Heq as <- <-.
  - intros s Hs. by eapply step_receive.
Qed.

(** C8, as the code has it, on a liveness request. *)
Lemma on_message_never_raises_witness :
  on_message loads_sample 1%N Delivered ping_text = Ok ([Text pong_msg], []).
Proof.
  destruct (on_message_never_raises loads_sample 1%N Delivered ping_text)
    as (sent & lines & Heq & _ & Hping & _).
  assert (Hload : loads_sample ping_text = Ok (JDict [("type", JStr "ping")]))
    by reflexivity.
  destruct (Hping _ Hload eq_refl eq_refl) as [Hs Hl].
  rewrite <- Hs, <- Hl. exact Heq.
Defined.

(** ** The server, step by step *)

Section ServerFacts.
Variable json_loads : message → result json.
#[local] Abbreviation step := (step json_loads).
#[local] Abbreviation run := (run json_loads).

Lemma run_app acts1 acts2 s :
  run (acts1 ++ acts2) s = s' ← run acts1 s; run acts2 s'.
Proof.
  revert s. induction acts1 as [|a acts1 IH]; intros s; [done|].
  cbn. destruct (step s a); cbn; [apply IH|done].
Qed.

Lemma server_inv_start : server_inv server_start.
Proof.
  split; cbn; try done. intros ws. by left.
Qed.

Lemma greeted_app websocket w fs :
  greeted websocket w → Forall later_frame fs → greeted websocket (w ++ fs).
Proof.
  intros (rest & -> & Hrest) Hfs. exists (rest ++ fs).
  split; [done|]. by apply Forall_app.
Qed.

(** Lookups in the updated [handlers] and [wire], by cases on whether the
    connection is the one the step was about. *)
Ltac at_connection :=
  unfold hand in *;
  repeat match goal with
  | H : context [<[?a := _]> _ ?a] |- _ => rewrite fn_lookup_insert in H
  | |- context [<[?a := _]> _ ?a] => rewrite fn_lookup_insert
  | Hne : ?a ≠ ?b, H : context [<[?a := _]> _ ?b] |- _ =>
      rewrite fn_lookup_insert_ne in H by done
  | Hne : ?a ≠ ?b |- context [<[?a := _]> _ ?b] =>
      rewrite fn_lookup_insert_ne by done
  | H : context [<[?a := _]> _ ?b] |- _ => destruct (decide (a = b)) as [<-|?]
  | |- context [<[?a := _]> _ ?b] => destruct (decide (a = b)) as [<-|?]
  end.

Lemma connect_preserves_inv s ws welcome s' :
  server_inv s → step s (Connect ws welcome) = Some s' → server_inv s'.
Proof.
  intros [Hlock Hfresh Hmem Hgreet Hwire Hround] Hstep. cbn in Hstep.
  destruct (handlers s ws) eqn:Hws; try done.
  destruct (lock_held s) eqn:Hl; try done.
  destruct (Hfresh ws Hws) as [Hnotin Hempty].
  destruct welcome as [|e]; injection Hstep as <-;
    split; cbn [clients lock_held broadcaster handlers wire].
  - by rewrite <- Hlock.
  - intros ws' Hws'. at_connection; [done|].
    destruct (Hfresh ws' Hws') as [? ?]. split; [set_solver|done].
  - intros ws' Hin. at_connection; [done|]. apply Hmem. set_solver.
  - intros ws' Hs. at_connection.
    + rewrite Hempty. by exists [].
    + by apply Hgreet.
  - intros ws'. at_connection.
    + rewrite Hempty. right. by exists [].
    + apply Hwire.
  - intros data pending r Hb. rewrite Hb in Hlock. congruence.
  - by rewrite <- Hlock.
  - intros ws' Hws'. at_connection; [done|].
    destruct (Hfresh ws' Hws') as [? ?]. split; [set_solver|done].
  - intros ws' Hin. at_connection; [set_solver|]. apply Hmem. set_solver.
  - intros ws' Hs. at_connection; [done|]. by apply Hgreet.
  - done.
  - intros data pending r Hb. rewrite Hb in Hlock. congruence.
Qed.

Lemma receive_preserves_inv s ws m pong s' :
  server_inv s → step s (Receive ws m pong) = Some s' → server_inv s'.
Proof.
  intros [Hlock Hfresh Hmem Hgreet Hwire Hround] Hstep. cbn in Hstep.
  destruct (handlers s ws) eqn:Hws; try done.
  destruct (on_message_total json_loads ws pong m) as (sent & lines & Hm & Hsent).
  rewrite Hm in Hstep. injection Hstep as <-.
  assert (Hlater : Forall later_frame sent).
  { destruct Hsent as [->| ->]; repeat constructor. }
  split; cbn [clients lock_held broadcaster handlers wire]; try done.
  - intros ws' Hws'. destruct (Hfresh ws' Hws') as [? ?]. split; [done|].
    at_connection; [congruence|done].
  - intros ws' Hs. at_connection; [|by apply Hgreet].
    apply greeted_app; [by apply Hgreet|done].
  - intros ws'. at_connection; [|apply Hwire].
    right. apply greeted_app; [by apply Hgreet|done].
Qed.

Lemma close_preserves_inv s ws s' :
  server_inv s → step s (Close ws) = Some s' → server_inv s'.
Proof.
  intros [Hlock Hfresh Hmem Hgreet Hwire Hround] Hstep. cbn in Hstep.
  destruct (handlers s ws) eqn:Hws; try done.
  destruct (lock_held s) eqn:Hl; try done.
  injection Hstep as <-.
  split; cbn [clients lock_held broadcaster handlers wire].
  - by rewrite <- Hlock.
  - intros ws' Hws'. at_connection; [done|].
    destruct (Hfresh ws' Hws') as [? ?]. split; [set_solver|done].
  - intros ws' Hin. at_connection; [set_solver|]. apply Hmem. set_solver.
  - intros ws' Hs. at_connection; [done|]. by apply Hgreet.
  - done.
  - intros data pending r Hb. rewrite Hb in Hlock. congruence.
Qed.

Lemma round_preserves_inv s a s' :
  (∃ data, a = RoundBegin data) ∨ (∃ b, a = RoundSend b) ∨ a = RoundEnd →
  server_inv s → step s a = Some s' → server_inv s'.
Proof.
  intros Ha [Hlock Hfresh Hmem Hgreet Hwire Hround] Hstep.
  destruct Ha as [[data ->]|[[b ->]| ->]]; cbn in Hstep.
  - destruct (broadcaster s) eqn:Hb; try done.
    destruct (lock_held s) eqn:Hl; try done.
    injection Hstep as <-.
    split; cbn [clients lock_held broadcaster handlers wire]; try done.
    intros data' pending r [= <- <- <-]. done.
  - destruct (broadcaster s) as [|data [|client pending] r] eqn:Hb; try done.
    injection Hstep as <-.
    pose proof (Hround _ _ _ eq_refl) as Hsplit.
    assert (Hin : client ∈ clients s).
    { apply elem_of_elements. rewrite <- Hsplit. set_solver. }
    pose proof (Hgreet _ (Hmem _ Hin)) as Hg.
    assert (Hbin : Forall later_frame [Binary data]).
    { apply Forall_singleton. right. by eexists. }
    split; cbn [clients lock_held broadcaster handlers wire]; try done.
    + intros ws' Hws'. destruct (Hfresh ws' Hws') as [? ?]. split; [done|].
      destruct (outcome b); [|done]. at_connection; [|done].
      rewrite (Hmem _ Hin) in Hws'. done.
    + intros ws' Hs. destruct (outcome b); [|by apply Hgreet].
      at_connection; [by apply greeted_app|by apply Hgreet].
    + intros ws'. destruct (outcome b); [|by apply Hwire].
      at_connection; [right; by apply greeted_app|apply Hwire].
    + intros data' pending' r' [= <- <- <-].
      rewrite send_to_attempts, fmap_app. cbn. rewrite <- Hsplit.
      by rewrite <- app_assoc.
  - destruct (broadcaster s) as [|data [|client pending] r] eqn:Hb; try done.
    injection Hstep as <-.
    split; cbn [clients lock_held broadcaster handlers wire]; try done.
    + intros ws' Hws'. destruct (Hfresh ws' Hws') as [? ?]. split; [|done].
      unfold prune. cbn. set_solver.
    + intros ws' Hin. apply Hmem. unfold prune in Hin. cbn in Hin. set_solver.
Qed.

Lemma step_preserves_inv s a s' :
  server_inv s → step s a = Some s' → server_inv s'.
Proof.
  destruct a.
  - apply connect_preserves_inv.
  - apply receive_preserves_inv.
  - apply close_preserves_inv.
  - apply round_preserves_inv. left. by eexists.
  - apply round_preserves_inv. right. left. by eexists.
  - apply round_preserves_inv. by right; right.
Qed.

Lemma run_preserves_inv acts s s' :
  server_inv s → run acts s = Some s' → server_inv s'.
Proof.
  revert s. induction acts as [|a acts IH]; intros s Hinv Hrun.
  - by injection Hrun as <-.
  - cbn in Hrun. destruct (step s a) as [s1|] eqn:Hstep; [|done].
    cbn in Hrun. eapply IH; [|done]. by eapply step_preserves_inv.
Qed.

Lemma reachable_inv s : reachable json_loads s → server_inv s.
Proof.
  intros [acts Hrun]. eapply run_preserves_inv; [apply server_inv_start|done].
Qed.
End ServerFacts.

(** One whole round of the transition system is the fan-out. *)
Lemma run_sends json_loads link s data members r :
  broadcaster s = Sending data members r →
  ∃ s', run json_loads (RoundSend ∘ link <$> members) s = Some s' ∧
        broadcaster s' = Sending data [] (send_loop data link members r) ∧
        clients s' = clients s ∧ lock_held s' = lock_held s ∧
        handlers s' = handlers s.
Proof.
  revert s r. induction members as [|client members IH]; intros s r Hb.
  { exists s. by rewrite Hb. }
  cbn [fmap list_fmap run compose]. unfold step at 1. rewrite Hb. cbn [mbind option_bind].
  edestruct (IH (Server (clients s) (lock_held s)
                   (Sending data members (send_to data (link client) r client))
                   (handlers s)
                   (match outcome (link client) with
                    | Delivered => hand [Binary data] client (wire s)
                    | Raised _ => wire s
                    end))) as (s' & Hrun & Hb' & ? & ? & ?); [done|].
  exists s'. split; [exact Hrun|]. done.
Qed.

Lemma run_round json_loads link s data :
  broadcaster s = Idle → lock_held s = false →
  ∃ s', run json_loads
          (RoundBegin data :: (RoundSend ∘ link <$> elements (clients s)) ++ [RoundEnd]) s
        = Some s' ∧
        clients s' = (fan_out data link (clients s)).1 ∧
        broadcaster s' = Idle ∧ lock_held s' = false.
Proof.
  intros Hb Hl. cbn [run]. unfold step at 1. rewrite Hb, Hl. cbn [mbind option_bind].
  rewrite run_app.
  edestruct (run_sends json_loads link
               (Server (clients s) true
                  (Sending data (elements (clients s)) round_start)
                  (handlers s) (wire s)))
    as (s1 & Hrun & Hb1 & Hc1 & _); [done|].
  rewrite Hrun. cbn [mbind option_bind run]. unfold step. rewrite Hb1.
  eexists. split; [reflexivity|]. cbn. rewrite Hc1. done.
Qed.

(** ** The event loop and the lock *)

#[local] Abbreviation play_body := play.
#[local] Abbreviation turn_body := turn.

Section EventLoopFacts.
Variable json_loads : message → result json.
#[local] Abbreviation step := (step json_loads).
#[local] Abbreviation run := (run json_loads).
#[local] Abbreviation turn := (turn json_loads).
#[local] Abbreviation play := (play json_loads).

Lemma turn_running s a s' :
  turn (Running s) a = Some (Running s') → step s a = Some s'.
Proof.
  unfold turn. intros H.
  assert (Hfmap : Running <$> step s a = Some (Running s') → step s a = Some s').
  { destruct (step s a); [|done]. intros [= ->]. done. }
  destruct a; try (by apply Hfmap);
    (destruct (suspended s); [|done]);
    destruct (acquires _ _ _) as [ws|], (lock_held s); try done; by apply Hfmap.
Qed.

Lemma turn_deadlocked s a s' websocket :
  turn (Running s) a = Some (Deadlocked s' websocket) →
  s' = s ∧ lock_held s = true ∧ suspended s = true ∧
  acquires json_loads s a = Some websocket.
Proof.
  unfold turn. intros H.
  assert (Hfmap : Running <$> step s a ≠ Some (Deadlocked s' websocket)).
  { by destruct (step s a). }
  destruct a; try done;
    (destruct (suspended s); [|done]);
    destruct (acquires _ _ _) as [ws|] eqn:Ha, (lock_held s) eqn:Hl; try done;
    by simplify_eq.
Qed.

Lemma turn_acquires s a websocket :
  acquires json_loads s a = Some websocket → suspended s = true →
  lock_held s = true →
  turn (Running s) a = Some (Deadlocked s websocket).
Proof.
  intros Ha Hs Hl. unfold turn. rewrite Ha, Hs, Hl. by destruct a.
Qed.

Lemma play_deadlocked acts s websocket l :
  play acts (Deadlocked s websocket) = Some l →
  acts = [] ∧ l = Deadlocked s websocket.
Proof. destruct acts; [|done]. by intros [= <-]. Qed.

(** The states a play goes through are states of a run: a play is a run
    that may end in a handler blocked at the lock. *)
Lemma play_run acts s0 l :
  play acts (Running s0) = Some l →
  ∃ acts', run acts' s0 = Some (state_of l).
Proof.
  revert s0. induction acts as [|a acts IH]; intros s0 Hplay.
  { injection Hplay as <-. by exists []. }
  cbn [play_body] in Hplay.
  destruct (turn (Running s0) a) as [[s1|s1 ws]|] eqn:Hturn; [| |done].
  - cbn in Hplay. apply turn_running in Hturn.
    destruct (IH _ Hplay) as [acts' Hrun]. exists (a :: acts').
    cbn. rewrite Hturn. done.
  - cbn in Hplay. apply play_deadlocked in Hplay as [_ ->].
    apply turn_deadlocked in Hturn as (-> & _). by exists [].
Qed.

Lemma play_inv acts l :
  play acts (Running server_start) = Some l → server_inv (state_of l).
Proof.
  intros Hplay. apply (reachable_inv json_loads). by eapply play_run.
Qed.

Lemma play_app acts1 acts2 l :
  play (acts1 ++ acts2) l = l' ← play acts1 l; play acts2 l'.
Proof.
  revert l. induction acts1 as [|a acts1 IH]; intros l; [done|].
  cbn. destruct (turn l a); cbn; [apply IH|done].
Qed.

(** From its first send to its last, a round keeps the registry and the
    list of its recipients as they are. *)
Lemma play_within_round acts s data pending r l :
  broadcaster s = Sending data pending r → lock_held s = true →
  play acts (Running s) = Some l → RoundEnd ∉ acts →
  clients (state_of l) = clients s ∧
  ∃ pending' r',
    broadcaster (state_of l) = Sending data pending' r' ∧
    (recipient <$> attempts r') ++ pending' = (recipient <$> attempts r) ++ pending.
Proof.
  revert s pending r. induction acts as [|a acts IH]; intros s pending r Hb Hl Hplay Hend.
  { injection Hplay as <-. split; [done|]. by exists pending, r. }
  cbn [play_body] in Hplay.
  destruct (turn (Running s) a) as [[s1|s1 ws]|] eqn:Hturn; [| |done]; cbn in Hplay.
  - apply turn_running in Hturn.
    assert (Hs1 : clients s1 = clients s ∧ lock_held s1 = true ∧
              ∃ pending1 r1, broadcaster s1 = Sending data pending1 r1 ∧
                (recipient <$> attempts r1) ++ pending1
                = (recipient <$> attempts r) ++ pending).
    { destruct a as [ws welcome|ws m pong|ws|data'|b|]; cbn in Hturn.
      - rewrite Hl in Hturn. by destruct (handlers s ws).
      - destruct (handlers s ws); try done.
        destruct (on_message _ _ _ _) as [[sent lines]|e].
        + injection Hturn as <-. cbn. split_and!; [done..|]. by exists pending, r.
        + by rewrite Hl in Hturn.
      - rewrite Hl in Hturn. by destruct (handlers s ws).
      - by rewrite Hb in Hturn.
      - rewrite Hb in Hturn. destruct pending as [|client pending]; [done|].
        injection Hturn as <-. cbn. split_and!; [done..|].
        eexists _, _. split; [done|].
        rewrite send_to_attempts, fmap_app, <- app_assoc. done.
      - set_solver. }
    destruct Hs1 as (Hc1 & Hl1 & pending1 & r1 & Hb1 & Hr1).
    destruct (IH s1 pending1 r1 Hb1 Hl1 Hplay) as (Hc & pending' & r' & Hb' & Hr');
      [set_solver|].
    split; [congruence|]. exists pending', r'. split; [done|congruence].
  - apply play_deadlocked in Hplay as [_ ->].
    apply turn_deadlocked in Hturn as (-> & _). cbn. split; [done|].
    by exists pending, r.
Qed.
End EventLoopFacts.



(** C7 fails on a client that connects while a round is suspended in a
    send: in [run_with_late_client] the handler of client 2 comes to
    [with self.lock:] (line 178) while the round holds the lock across
    its send to client 1. It blocks there, before the registration and
    before the welcome, and with it the thread of the event loop: client 2
    has been handed nothing, is not registered, and no task runs again
    that could hand it the handshake. *)
Lemma connect_during_round_gets_no_handshake :
  ∃ s, play loads_sample run_with_late_client (Running server_start)
       = Some (Deadlocked s 2%N) ∧
       lock_held s = true ∧
       handlers s 2%N = NotConnected ∧
       wire s 2%N = [] ∧
       (2%N ∉ clients s) ∧
       ∀ a, turn loads_sample (Deadlocked s 2%N) a = None.
Proof.
  destruct (play loads_sample run_with_late_client (Running server_start))
    as [[s|s ws]|] eqn:Hplay;
    [vm_compute in Hplay; discriminate Hplay| |vm_compute in Hplay; discriminate Hplay].
  assert (Hws : ws = 2%N) by (vm_compute in Hplay; by injection Hplay as _ <-).
  subst ws. exists s. split; [done|].
  vm_compute in Hplay. injection Hplay as <-.
  split_and!; try reflexivity.
  refine (bool_decide_unpack _ _). vm_compute. exact I.
Qed.

(** C4 as the specification words it fails, on both counts: in the state
    [run_into_slow_send] leads to, the round is suspended in a send of
    100 ms and the lock is held, so the send loop is inside the critical
    section; and the turn of a connecting client 2 does not register it,
    its handler being stopped at the lock. *)
Lemma round_blocks_connect :
  ¬ (∀ json_loads acts s data pending r,
       play json_loads acts (Running server_start) = Some (Running s) →
       broadcaster s = Sending data pending r →
       lock_held s = false) ∧
  ¬ (∀ json_loads acts s data pending r websocket,
       play json_loads acts (Running server_start) = Some (Running s) →
       broadcaster s = Sending data pending r →
       suspended s = true →
       handlers s websocket = NotConnected →
       ∃ s', turn json_loads (Running s) (Connect websocket Delivered)
             = Some (Running s') ∧
             websocket ∈ clients s').
Proof.
  destruct (play loads_sample run_into_slow_send (Running server_start))
    as [[s|s ws]|] eqn:Hplay;
    [|vm_compute in Hplay; discriminate Hplay..].
  assert (Hs : s = Server {[1%N]} true
                 (Sending sample_payload []
                    (send_to sample_payload slow_send round_start 1%N))
                 (handlers s) (wire s) ∧
               handlers s 2%N = NotConnected).
  { vm_compute in Hplay. injection Hplay as <-. split; reflexivity. }
  destruct Hs as [Hs Hnew]. split; intros H.
  - specialize (H loads_sample run_into_slow_send s sample_payload []
                  (send_to sample_payload slow_send round_start 1%N) Hplay).
    rewrite Hs in H. by specialize (H eq_refl).
  - destruct (H loads_sample run_into_slow_send s sample_payload []
                (send_to sample_payload slow_send round_start 1%N) 2%N Hplay)
      as (s' & Hturn & _); [by rewrite Hs| by rewrite Hs|done|].
    unfold turn, acquires in Hturn. rewrite Hnew in Hturn.
    rewrite Hs in Hturn. discriminate Hturn.
Qed.

(** C4, as the code has it. A fan-out round iterates the registry itself
    and holds the registry's lock from before its first send until after
    its last: at every moment of a round the lock is held; the registry
    is the one the round began with, and the members the round has sent
    to and has yet to send to are its members, in the order the set
    yields them; no turn but the end of the round changes the registry;
    and no connect and no disconnect takes effect, for the handler that
    attempts one does not get past the lock (it blocks there, and the
    thread of the event loop with it). *)
Theorem round_holds_the_lock
    (json_loads : message → result json) (acts : list action) (s : server)
    (data : list byte) (pending : list conn) (r : round) :
  play json_loads acts (Running server_start) = Some (Running s) →
  broadcaster s = Sending data pending r →
  lock_held s = true ∧
  (recipient <$> attempts r) ++ pending = elements (clients s) ∧
  (∀ before during s0,
     acts = before ++ RoundBegin data :: during → RoundEnd ∉ during →
     play json_loads before (Running server_start) = Some (Running s0) →
     clients s = clients s0 ∧
     (recipient <$> attempts r) ++ pending = elements (clients s0)) ∧
  (∀ a s', turn json_loads (Running s) a = Some (Running s') → a ≠ RoundEnd →
           clients s' = clients s) ∧
  (∀ websocket welcome s',
     turn json_loads (Running s) (Connect websocket welcome) ≠ Some (Running s')) ∧
  (∀ websocket s',
     turn json_loads (Running s) (Close websocket) ≠ Some (Running s')) ∧
  (∀ a websocket,
     acquires json_loads s a = Some websocket → suspended s = true →
     turn json_loads (Running s) a = Some (Deadlocked s websocket)).
Proof.
  intros Hplay Hb.
  assert (Hinv : server_inv s) by (by apply (play_inv json_loads acts (Running s))).
  destruct Hinv as [Hlock _ _ _ _ Hround]. rewrite Hb in Hlock.
  split_and!.
  - done.
  - apply (Hround _ _ _ Hb).
  - intros before during s0 -> Hend Hbefore.
    rewrite play_app, Hbefore in Hplay. cbn [mbind option_bind] in Hplay.
    cbn [play_body turn_body] in Hplay.
    destruct (step json_loads s0 (RoundBegin data)) as [s1|] eqn:Hstep; [|done].
    cbn in Hstep. destruct (broadcaster s0); [|done].
    destruct (lock_held s0); [done|]. injection Hstep as <-.
    cbn [fmap option_fmap option_map mbind option_bind] in Hplay.
    eapply play_within_round in Hplay as (Hc & pending' & r' & Hb' & Hr');
      [|reflexivity|reflexivity|done].
    cbn in Hc, Hb', Hr'. rewrite Hb in Hb'. injection Hb' as <- <-.
    split; [done|]. by rewrite Hr'.
  - intros a s' Hturn Ha. apply turn_running in Hturn as Hstep.
    destruct a as [ws welcome|ws m pong|ws|data'|b|]; cbn in Hstep.
    + rewrite Hlock in Hstep. by destruct (handlers s ws).
    + destruct (handlers s ws); try done.
      destruct (on_message _ _ _ _) as [[sent lines]|e].
      * by injection Hstep as <-.
      * by rewrite Hlock in Hstep.
    + rewrite Hlock in Hstep. by destruct (handlers s ws).
    + by rewrite Hb in Hstep.
    + rewrite Hb in Hstep. destruct pending; [done|]. by injection Hstep as <-.
    + done.
  - intros ws welcome s' Hturn. apply turn_running in Hturn. cbn in Hturn.
    rewrite Hlock in Hturn. by destruct (handlers s ws).
  - intros ws s' Hturn. apply turn_running in Hturn. cbn in Hturn.
    rewrite Hlock in Hturn. by destruct (handlers s ws).
  - intros a ws Ha Hs. by apply turn_acquires.
Qed.

(** C4, as the code has it, at the end of [run_into_slow_send]. *)
Lemma round_holds_the_lock_witness :
  ∃ s, play loads_sample run_into_slow_send (Running server_start)
       = Some (Running s) ∧
       lock_held s = true ∧
       elements (clients s) = [1%N] ∧
       turn loads_sample (Running s) (Connect 2%N Delivered)
       = Some (Deadlocked s 2%N).
Proof.
  destruct (play loads_sample run_into_slow_send (Running server_start))
    as [[s|s ws]|] eqn:Hplay;
    [|vm_compute in Hplay; discriminate Hplay..].
  exists s. split; [done|].
  destruct (round_holds_the_lock loads_sample run_into_slow_send s sample_payload
              [] (send_to sample_payload slow_send round_start 1%N) Hplay)
    as (Hl & Hr & _ & _ & _ & _ & Hd).
  - vm_compute in Hplay. injection Hplay as <-. reflexivity.
  - split; [exact Hl|]. split; [etrans; [symmetry; exact Hr|reflexivity]|].
    apply Hd; vm_compute in Hplay; injection Hplay as <-; reflexivity.
Defined.

(** C6 fails in a round during which the handler of the failed member
    comes to its [finally]. In [run_with_closed_client] three clients are
    registered; the round's send to client 2 raises ConnectionClosed and
    client 2 is marked; the round goes on to client 3, and while that
    send is under way the handler of client 2, whose message loop the
    closed connection has ended, comes to [with self.lock:] (line 205).
    The thread of the event loop blocks there with the lock held by the
    round: the round is never resumed, client 1 is never sent the payload
    of the round, client 2 is never unregistered, and no task runs
    again. *)
Lemma closed_client_hangs_the_round :
  ∃ s r, play loads_sample run_with_closed_client (Running server_start)
         = Some (Deadlocked s 2%N) ∧
         broadcaster s = Sending sample_payload [1%N] r ∧
         recipient <$> attempts r = [2%N; 3%N] ∧
         2%N ∈ disconnected_clients r ∧
         2%N ∈ clients s ∧
         1%N ∈ clients s ∧
         wire s 1%N = [Text (welcome_msg 1%N)] ∧
         lock_held s = true ∧
         ∀ a, turn loads_sample (Deadlocked s 2%N) a = None.
Proof.
  destruct (play loads_sample run_with_closed_client (Running server_start))
    as [[s|s ws]|] eqn:Hplay;
    [vm_compute in Hplay; discriminate Hplay| |vm_compute in Hplay; discriminate Hplay].
  assert (Hws : ws = 2%N) by (vm_compute in Hplay; by injection Hplay as _ <-).
  subst ws.
  exists s, (send_to sample_payload slow_send
               (send_to sample_payload (SendBehaviour 0 (Raised ConnectionClosed))
                  round_start 2%N) 3%N).
  split; [done|].
  vm_compute in Hplay. injection Hplay as <-.
  split_and!; try reflexivity;
    refine (bool_decide_unpack _ _); vm_compute; exact I.
Qed.

(** ** The broadcast loop over many ticks *)

Section BroadcastLoopFacts.
Variable float_repr : float → string.
Variable gzip_rest : list byte → list byte.
Variable self_intrinsics : option intrinsics.
#[local] Abbreviation tick_of :=
  (stream_iteration float_repr gzip_rest self_intrinsics).
#[local] Abbreviation loop_of :=
  (stream_loop float_repr gzip_rest self_intrinsics).

(** What one tick does to the registry and whom it sends to. *)
Lemma stream_iteration_registry depth_frame color_frame now link clients :
  let '(clients', t) := tick_of depth_frame color_frame now link clients in
  match t with
  | FannedOut data r =>
      clients' = clients ∖ list_to_set (failing link (elements clients)) ∧
      attempts r = timeline data link 0 (elements clients) ∧
      disconnected_clients r = list_to_set (failing link (elements clients))
  | _ => clients' = clients
  end.
Proof.
  unfold stream_iteration.
  destruct depth_frame as [df|]; [|done]. destruct color_frame as [cf|]; [|done].
  destruct (generate_point_cloud _ _ _ _) as [pc|]; [|done].
  unfold compress_point_cloud.
  set (data := gzip_compress gzip_rest _). unfold data at 1, gzip_compress at 1.
  cbn [nonempty_bytes].
  destruct (fan_out_spec data link clients) as (Hc & Ha & _ & Hd).
  destruct (fan_out data link clients) as [clients' r]. done.
Qed.

(** A tick never adds to the registry, and sends to registered clients
    only; so does a run of ticks. *)
Lemma stream_loop_within captures clients final ticks streaming :
  loop_of captures clients = (final, ticks, streaming) →
  final ⊆ clients ∧
  ∀ t c, t ∈ ticks → c ∈ tick_recipients t → c ∈ clients.
Proof.
  revert clients final ticks streaming.
  induction captures as [|cap captures IH]; intros clients final ticks streaming Hloop.
  { injection Hloop as <- <- <-. split; [done|]. intros t c Ht. by inversion Ht. }
  cbn [stream_loop] in Hloop.
  destruct (wait_for_frames cap) as [[depth_frame color_frame]|e].
  2:{ injection Hloop as <- <- <-. split; [done|]. intros t c Ht. by inversion Ht. }
  pose proof (stream_iteration_registry depth_frame color_frame (time_now cap)
                (network cap) clients) as Htick.
  destruct (tick_of _ _ _ _ _) as [clients' t].
  destruct (loop_of captures clients') as [[final' ticks'] streaming'] eqn:Hrest.
  injection Hloop as <- <- <-. destruct (IH _ _ _ _ Hrest) as [Hsub Hrec].
  assert (Hshrink : clients' ⊆ clients).
  { destruct t; [by subst..|]. destruct Htick as (-> & _). set_solver. }
  split; [set_solver|]. intros t' c Ht' Hc. apply elem_of_cons in Ht' as [->|Ht'].
  - destruct t as [| |data r]; [by inversion Hc..|]. destruct Htick as (_ & Ha & _).
    cbn in Hc. rewrite Ha, timeline_recipients in Hc. set_solver.
  - apply Hshrink. by eapply Hrec.
Qed.

(** X1. Over any number of ticks of the broadcast loop, a client one of
    whose sends raised is out of the registry from the end of that tick
    on: no later tick makes a send to it, and it is not registered when
    the loop ends. The registry the loop ends with is within the one it
    began with. *)
Theorem dropped_client_is_sent_nothing_more
    (captures : list capture) (clients final : gset conn) (ticks : list tick)
    (streaming : bool) (k : nat) (data : list byte) (r : round) (client : conn) :
  loop_of captures clients = (final, ticks, streaming) →
  ticks !! k = Some (FannedOut data r) →
  client ∈ disconnected_clients r →
  final ⊆ clients ∧
  (client ∉ final) ∧
  ∀ j t, k < j → ticks !! j = Some t → client ∉ tick_recipients t.
Proof.
  intros Hloop Hk Hdisc. split; [by eapply stream_loop_within|].
  revert clients final ticks streaming k Hloop Hk.
  induction captures as [|cap captures IH];
    intros clients final ticks streaming k Hloop Hk.
  { by injection Hloop as <- <- <-. }
  cbn [stream_loop] in Hloop.
  destruct (wait_for_frames cap) as [[depth_frame color_frame]|e];
    [|by injection Hloop as <- <- <-].
  pose proof (stream_iteration_registry depth_frame color_frame (time_now cap)
                (network cap) clients) as Htick.
  destruct (tick_of _ _ _ _ _) as [clients' t].
  destruct (loop_of captures clients') as [[final' ticks'] streaming'] eqn:Hrest.
  injection Hloop as <- <- <-. destruct k as [|k].
  - injection Hk as ->. destruct Htick as (-> & _ & Hd).
    destruct (stream_loop_within _ _ _ _ _ Hrest) as [Hsub Hrec].
    rewrite Hd in Hdisc. split; [set_solver|].
    intros [|j] t' Hj Ht Hin; [lia|]. cbn in Ht.
    assert (client ∈ clients ∖ list_to_set (failing (network cap) (elements clients)))
      as Hc; [|set_solver].
    eapply Hrec; [|done]. apply list_elem_of_lookup. by exists j.
  - destruct (IH _ _ _ _ k Hrest Hk) as [Hout Hlater]. split; [done|].
    intros [|j] t' Hj Ht; [lia|]. apply (Hlater j); [lia|done].
Qed.

(** X2. Over any number of ticks, a registered client whose sends all
    arrive stays registered, whatever happens to the other clients, and
    every tick that fans out makes a send to it, of that tick's payload,
    which arrives. *)
Theorem healthy_client_gets_every_payload
    (captures : list capture) (clients final : gset conn) (ticks : list tick)
    (streaming : bool) (client : conn) :
  loop_of captures clients = (final, ticks, streaming) →
  client ∈ clients →
  Forall (λ cap, outcome (network cap client) = Delivered) captures →
  client ∈ final ∧
  ∀ k data r, ticks !! k = Some (FannedOut data r) →
    ∃ a, a ∈ attempts r ∧ recipient a = client ∧ payload a = data ∧
         went a = Delivered.
Proof.
  revert clients final ticks streaming.
  induction captures as [|cap captures IH];
    intros clients final ticks streaming Hloop Hin Hok.
  { injection Hloop as <- <- <-. by split. }
  cbn [stream_loop] in Hloop. inversion Hok as [|?? Hcap Hrest']; subst.
  destruct (wait_for_frames cap) as [[depth_frame color_frame]|e];
    [|injection Hloop as <- <- <-; by split].
  pose proof (stream_iteration_registry depth_frame color_frame (time_now cap)
                (network cap) clients) as Htick.
  destruct (tick_of _ _ _ _ _) as [clients' t].
  destruct (loop_of captures clients') as [[final' ticks'] streaming'] eqn:Hrest.
  injection Hloop as <- <- <-.
  assert (Hstay : client ∈ clients').
  { destruct t; [by subst..|]. destruct Htick as (-> & _).
    apply elem_of_difference. split; [done|].
    rewrite elem_of_list_to_set, elem_of_failing. intros [_ Hne]. done. }
  destruct (IH _ _ _ _ Hrest Hstay Hrest') as [Hfinal Hticks]. split; [done|].
  intros [|k] data r Hk; [|by eapply Hticks].
  injection Hk as ->. destruct Htick as (_ & Ha & _).
  apply elem_of_elements, list_elem_of_lookup in Hin as [i Hi].
  eexists. rewrite Ha. split; [|split_and!].
  - apply list_elem_of_lookup. exists i. by apply timeline_lookup.
  - done.
  - done.
  - done.
Qed.

(** X3. An exception of the capture ends the broadcast loop for good: the
    ticks before it took place, no tick takes place after it, whatever
    the captures to come would have been, and [self.streaming] is off. *)
Theorem capture_failure_ends_the_loop
    (before after : list capture) (cap : capture) (e : exn)
    (clients : gset conn) :
  Forall (λ c, ∃ frames, wait_for_frames c = Ok frames) before →
  wait_for_frames cap = Raise e →
  ∃ final ticks,
    loop_of before clients = (final, ticks, true) ∧
    loop_of (before ++ cap :: after) clients = (final, ticks, false) ∧
    length ticks = length before.
Proof.
  intros Hbefore Hcap. revert clients.
  induction Hbefore as [|c before [[depth_frame color_frame] Hc] _ IH]; intros clients.
  { exists clients, []. cbn. by rewrite Hcap. }
  cbn [stream_loop app]. rewrite Hc.
  destruct (tick_of _ _ _ _ _) as [clients' t].
  destruct (IH clients') as (final & ticks & -> & -> & Hlen).
  exists final, (t :: ticks). cbn. by rewrite Hlen.
Qed.
End BroadcastLoopFacts.

(** X1 on two ticks over three clients: the send to client 2 breaks in
    the first. *)
Lemma dropped_client_is_sent_nothing_more_witness :
  ∃ final ticks,
    stream_loop (λ _, EmptyString) (λ _, []) (Some calibration_600)
      [capture_2_broken; capture_fine] three_clients = (final, ticks, true) ∧
    (2%N ∉ final) ∧
    ∀ t, ticks !! 1 = Some t → 2%N ∉ tick_recipients t.
Proof.
  destruct (stream_loop (λ _, EmptyString) (λ _, []) (Some calibration_600)
              [capture_2_broken; capture_fine] three_clients)
    as [[final ticks] streaming] eqn:Hloop.
  assert (Hstreaming : streaming = true).
  { vm_compute in Hloop. by injection Hloop as _ _ <-. }
  subst streaming. exists final, ticks. split; [done|].
  assert (Hfirst : ∃ data r, ticks !! 0 = Some (FannedOut data r) ∧
                             2%N ∈ disconnected_clients r).
  { vm_compute in Hloop. injection Hloop as _ <-. eexists _, _.
    split; [reflexivity|]. refine (bool_decide_unpack _ _). vm_compute. exact I. }
  destruct Hfirst as (data & r & Hk & Hdisc).
  destruct (dropped_client_is_sent_nothing_more _ _ _ _ _ _ _ _ 0 data r 2%N
              Hloop Hk Hdisc) as (_ & Hout & Hlater).
  split; [exact Hout|]. intros t. apply Hlater. lia.
Defined.

(** X2 on the same two ticks, for client 1. *)
Lemma healthy_client_gets_every_payload_witness :
  ∃ final ticks,
    stream_loop (λ _, EmptyString) (λ _, []) (Some calibration_600)
      [capture_2_broken; capture_fine] three_clients = (final, ticks, true) ∧
    1%N ∈ final.
Proof.
  destruct (stream_loop (λ _, EmptyString) (λ _, []) (Some calibration_600)
              [capture_2_broken; capture_fine] three_clients)
    as [[final ticks] streaming] eqn:Hloop.
  assert (Hstreaming : streaming = true).
  { vm_compute in Hloop. by injection Hloop as _ _ <-. }
  subst streaming. exists final, ticks. split; [done|].
  apply (healthy_client_gets_every_payload _ _ _ _ _ _ _ _ 1%N Hloop).
  - unfold three_clients. set_solver.
  - repeat constructor.
Defined.

(** X3 on a failed capture between two good ones. *)
Lemma capture_failure_ends_the_loop_witness :
  ∃ final ticks,
    stream_loop (λ _, EmptyString) (λ _, []) (Some calibration_600)
      [capture_2_broken; capture_failed; capture_fine] three_clients
    = (final, ticks, false) ∧
    length ticks = 1.
Proof.
  destruct (capture_failure_ends_the_loop (λ _, EmptyString) (λ _, [])
              (Some calibration_600) [capture_2_broken] [capture_fine]
              capture_failed OtherException three_clients)
    as (final & ticks & _ & Hloop & Hlen).
  - repeat constructor. by eexists.
  - reflexivity.
  - exists final, ticks. split; [exact Hloop|exact Hlen].
Defined.

(** ** Connections out of the registry *)

Section RegistryFacts.
Variable json_loads : message → result json.
#[local] Abbreviation step_of := (step json_loads).
#[local] Abbreviation run_of := (run json_loads).

(** A property that every step keeps, in the states the server can be in,
    is kept by every run. *)
Lemma run_keeps (P : server → Prop) :
  (∀ s a s', server_inv s → P s → step_of s a = Some s' → P s') →
  ∀ acts s s', server_inv s → P s → run_of acts s = Some s' → P s'.
Proof.
  intros Hstep acts. induction acts as [|a acts IH]; intros s s' Hinv HP Hrun.
  - by injection Hrun as <-.
  - cbn in Hrun. destruct (step_of s a) as [s1|] eqn:Hs; [|done]. cbn in Hrun.
    eapply IH; [|by eapply Hstep|done]. by eapply step_preserves_inv.
Qed.

(** The recipient of the next send of a round is registered. *)
Lemma next_recipient_registered s data client pending r :
  server_inv s → broadcaster s = Sending data (client :: pending) r →
  client ∈ clients s.
Proof.
  intros Hinv Hb. apply elem_of_elements.
  rewrite <- (inv_round s Hinv _ _ _ Hb). set_solver.
Qed.

(** One step, seen from a connection that is not registered and whose
    handler has started: it stays so, and all it can be handed is a pong. *)
Lemma step_unregistered s a s' websocket :
  server_inv s → websocket ∉ clients s →
  handlers s websocket ≠ NotConnected →
  step_of s a = Some s' →
  (websocket ∉ clients s') ∧
  handlers s' websocket ≠ NotConnected ∧
  (handlers s websocket = Gone → handlers s' websocket = Gone) ∧
  ∃ pongs, wire s' websocket = wire s websocket ++ pongs ∧
           Forall (λ f, f = Text pong_msg) pongs ∧
           (handlers s websocket = Gone → pongs = []).
Proof.
  intros Hinv Hout Hstarted Hstep.
  destruct a as [ws welcome|ws m pong|ws|data|b|]; cbn in Hstep.
  - destruct (handlers s ws) eqn:Hws; try done.
    destruct (lock_held s); try done.
    assert (ws ≠ websocket) by congruence.
    destruct welcome; injection Hstep as <-; cbn; unfold hand;
      rewrite !fn_lookup_insert_ne by done;
      (split_and!; [set_solver|done|done|]);
      exists []; by rewrite app_nil_r.
  - destruct (handlers s ws) eqn:Hws; try done.
    destruct (on_message_total json_loads ws pong m) as (sent & lines & Hm & Hsent).
    rewrite Hm in Hstep. injection Hstep as <-. cbn. split_and!; try done.
    unfold hand. destruct (decide (ws = websocket)) as [->|Hne].
    + rewrite fn_lookup_insert. exists sent. split_and!; [done| |congruence].
      destruct Hsent as [->| ->]; repeat constructor.
    + rewrite fn_lookup_insert_ne by done. exists []. by rewrite app_nil_r.
  - destruct (handlers s ws) eqn:Hws; try done.
    destruct (lock_held s); try done. injection Hstep as <-. cbn.
    split_and!.
    + set_solver.
    + destruct (decide (ws = websocket)) as [->|Hne].
      * by rewrite fn_lookup_insert.
      * by rewrite fn_lookup_insert_ne.
    + intros Hg. rewrite fn_lookup_insert_ne; [done|congruence].
    + exists []. by rewrite app_nil_r.
  - destruct (broadcaster s); try done. destruct (lock_held s); try done.
    injection Hstep as <-. cbn. split_and!; try done.
    exists []. by rewrite app_nil_r.
  - destruct (broadcaster s) as [|data [|client pending] r] eqn:Hb; try done.
    injection Hstep as <-. cbn. split_and!; try done.
    pose proof (next_recipient_registered s _ _ _ _ Hinv Hb) as Hin.
    assert (client ≠ websocket) by (intros ->; done).
    exists []. rewrite app_nil_r. split; [|done].
    destruct (outcome b); [|done]. unfold hand. by rewrite fn_lookup_insert_ne.
  - destruct (broadcaster s) as [|data [|client pending] r]; try done.
    injection Hstep as <-. cbn. split_and!; try done.
    + unfold prune. cbn. set_solver.
    + exists []. by rewrite app_nil_r.
Qed.

(** A connection whose handler is over is not registered. *)
Lemma gone_is_unregistered s websocket :
  server_inv s → handlers s websocket = Gone → websocket ∉ clients s.
Proof.
  intros Hinv Hgone Hin. rewrite (inv_members s Hinv _ Hin) in Hgone. done.
Qed.

(** A run, seen from a connection that is not registered and whose
    handler has started. *)
Lemma run_unregistered acts s s' websocket :
  server_inv s → websocket ∉ clients s →
  handlers s websocket ≠ NotConnected →
  run_of acts s = Some s' →
  (websocket ∉ clients s') ∧
  (handlers s websocket = Gone → handlers s' websocket = Gone) ∧
  ∃ pongs, wire s' websocket = wire s websocket ++ pongs ∧
           Forall (λ f, f = Text pong_msg) pongs ∧
           (handlers s websocket = Gone → pongs = []).
Proof.
  revert s. induction acts as [|a acts IH]; intros s Hinv Hout Hstarted Hrun.
  { injection Hrun as <-. split_and!; try done. exists []. by rewrite app_nil_r. }
  cbn in Hrun. destruct (step_of s a) as [s1|] eqn:Hstep; [|done]. cbn in Hrun.
  destruct (step_unregistered s a s1 websocket Hinv Hout Hstarted Hstep)
    as (Hout1 & Hstarted1 & Hgone1 & pongs1 & Hw1 & Hp1 & Hn1).
  destruct (IH s1 (step_preserves_inv json_loads _ _ _ Hinv Hstep)
              Hout1 Hstarted1 Hrun)
    as (Hout' & Hgone' & pongs & Hw & Hp & Hn).
  split_and!; [done|auto|]. exists (pongs1 ++ pongs).
  rewrite Hw, Hw1, app_assoc. split_and!; [done|by apply Forall_app|].
  intros Hg. rewrite (Hn1 Hg), (Hn (Hgone1 Hg)). done.
Qed.
End RegistryFacts.

(** X4. A connection that is out of the registry while its handler has
    started (its send raised in a round, or its handler is over) is never
    registered again, and from then on no round sends to it: whatever the
    server does next, all the connection is handed are pongs. *)
Theorem unregistered_client_gets_no_payload
    (json_loads : message → result json) (before acts : list action)
    (s s' : server) (websocket : conn) :
  run json_loads before server_start = Some s →
  websocket ∉ clients s →
  handlers s websocket ≠ NotConnected →
  run json_loads acts s = Some s' →
  (websocket ∉ clients s') ∧
  ∃ pongs, wire s' websocket = wire s websocket ++ pongs ∧
           Forall (λ f, f = Text pong_msg) pongs.
Proof.
  intros Hbefore Hout Hstarted Hrun.
  assert (Hinv : server_inv s) by (apply (reachable_inv json_loads); by exists before).
  destruct (run_unregistered json_loads acts s s' websocket Hinv Hout Hstarted Hrun)
    as (Hout' & _ & pongs & Hw & Hp & _).
  split; [done|]. by exists pongs.
Qed.

Lemma unregistered_client_gets_no_payload_witness :
  ∃ s s', run loads_sample run_with_pruned_client server_start = Some s ∧
          run loads_sample run_after_pruning s = Some s' ∧
          (1%N ∉ clients s') ∧
          ∃ pongs, wire s' 1%N = wire s 1%N ++ pongs ∧
                   Forall (λ f, f = Text pong_msg) pongs.
Proof.
  eexists _, _. split; [vm_compute; reflexivity|]. split; [vm_compute; reflexivity|].
  eapply (unregistered_client_gets_no_payload loads_sample run_with_pruned_client
            run_after_pruning _ _ 1%N).
  - vm_compute. reflexivity.
  - refine (bool_decide_unpack _ _). vm_compute. exact I.
  - vm_compute. discriminate.
  - vm_compute. reflexivity.
Defined.

(** X5. Once the handler of a connection is over, the connection is out
    of the registry and stays out, its handler stays over, and the
    connection is handed nothing more, whatever the server does next. *)
Theorem finished_connection_is_silent
    (json_loads : message → result json) (before acts : list action)
    (s s' : server) (websocket : conn) :
  run json_loads before server_start = Some s →
  handlers s websocket = Gone →
  run json_loads acts s = Some s' →
  (websocket ∉ clients s) ∧
  (websocket ∉ clients s') ∧
  handlers s' websocket = Gone ∧
  wire s' websocket = wire s websocket.
Proof.
  intros Hbefore Hgone Hrun.
  assert (Hinv : server_inv s) by (apply (reachable_inv json_loads); by exists before).
  pose proof (gone_is_unregistered s websocket Hinv Hgone) as Hout.
  destruct (run_unregistered json_loads acts s s' websocket Hinv Hout) as
    (Hout' & Hgone' & pongs & Hw & _ & Hn); [congruence|done|].
  split_and!; [done|done|auto|]. by rewrite Hw, (Hn Hgone), app_nil_r.
Qed.

Lemma finished_connection_is_silent_witness :
  ∃ s s', run loads_sample (run_with_pruned_client ++ run_after_pruning)
            server_start = Some s ∧
          run loads_sample [RoundBegin sample_payload;
                            RoundSend (SendBehaviour 5 Delivered);
                            RoundEnd] s = Some s' ∧
          wire s' 1%N = wire s 1%N.
Proof.
  destruct (run loads_sample (run_with_pruned_client ++ run_after_pruning)
              server_start) as [s|] eqn:Hbefore;
    [|vm_compute in Hbefore; discriminate Hbefore].
  assert (Hgone : handlers s 1%N = Gone).
  { vm_compute in Hbefore. injection Hbefore as <-. reflexivity. }
  destruct (run loads_sample [RoundBegin sample_payload;
                              RoundSend (SendBehaviour 5 Delivered);
                              RoundEnd] s) as [s'|] eqn:Hrun.
  - exists s, s'. split_and!; [done|done|].
    eapply (finished_connection_is_silent loads_sample _ _ s s' 1%N
              Hbefore Hgone Hrun).
  - vm_compute in Hbefore. injection Hbefore as <-. vm_compute in Hrun.
    discriminate Hrun.
Defined.

(** ** A round, step by step and as a block *)

(** The sends of a round, one step each, to members met once each. *)
Lemma run_sends_wire json_loads link s data members r :
  broadcaster s = Sending data members r → NoDup members →
  ∃ s', run json_loads (RoundSend ∘ link <$> members) s = Some s' ∧
        broadcaster s' = Sending data [] (send_loop data link members r) ∧
        clients s' = clients s ∧ lock_held s' = lock_held s ∧
        handlers s' = handlers s ∧
        ∀ client, wire s' client =
          wire s client ++
          if decide (client ∈ members ∧ outcome (link client) = Delivered)
          then [Binary data] else [].
Proof.
  revert s r. induction members as [|member members IH]; intros s r Hb Hnodup.
  { exists s. rewrite Hb. split_and!; try done. intros client.
    rewrite decide_False, app_nil_r; [done|]. intros [Hin _]. by inversion Hin. }
  apply NoDup_cons in Hnodup as [Hfresh Hnodup].
  cbn [fmap list_fmap run compose]. unfold step at 1. rewrite Hb.
  cbn [mbind option_bind].
  edestruct (IH (Server (clients s) (lock_held s)
                   (Sending data members (send_to data (link member) r member))
                   (handlers s)
                   (match outcome (link member) with
                    | Delivered => hand [Binary data] member (wire s)
                    | Raised _ => wire s
                    end))) as (s' & Hrun & Hb' & Hc & Hl & Hh & Hw); [done|done|].
  exists s'. split; [exact Hrun|]. split_and!; try done.
  intros client. rewrite Hw. cbn [wire].
  destruct (decide (client = member)) as [->|Hne].
  - rewrite (decide_False (P := member ∈ members ∧ _)) by (by intros [? _]).
    rewrite app_nil_r. destruct (outcome (link member)) eqn:Hout.
    + unfold hand. rewrite fn_lookup_insert.
      rewrite decide_True; [done|]. split; [by left|done].
    + rewrite decide_False, app_nil_r; [done|]. by intros [_ ?].
  - assert (Hsame : (match outcome (link member) with
                     | Delivered => hand [Binary data] member (wire s)
                     | Raised _ => wire s
                     end) client = wire s client).
    { destruct (outcome (link member)); [|done].
      unfold hand. by rewrite fn_lookup_insert_ne. }
    rewrite Hsame. f_equal.
    destruct (decide (client ∈ members ∧ _)) as [[Hin Hok]|Hno].
    + rewrite decide_True; [done|]. split; [by right|done].
    + rewrite decide_False; [done|]. intros [Hin Hok]. apply Hno.
      split; [|done]. apply elem_of_cons in Hin as [?|?]; done.
Qed.

(** X6. Taken step by step (the lock, one send after another, the
    pruning), a round does what the block under the lock does as a whole:
    from a server with no round in progress the steps can all be taken in
    turn; the registry they end with is the one [fan_out] computes, with
    the lock free again; the handlers are as before; and each client is
    handed the payload once if it was registered and its send arrived,
    and nothing otherwise. *)
Theorem round_is_fan_out
    (json_loads : message → result json) (link : conn → send_behaviour)
    (s : server) (data : list byte) :
  broadcaster s = Idle → lock_held s = false →
  ∃ s', run json_loads
          (RoundBegin data :: (RoundSend ∘ link <$> elements (clients s))
             ++ [RoundEnd]) s = Some s' ∧
        clients s' = (fan_out data link (clients s)).1 ∧
        broadcaster s' = Idle ∧ lock_held s' = false ∧
        handlers s' = handlers s ∧
        ∀ client, wire s' client =
          wire s client ++
          if decide (client ∈ clients s ∧ outcome (link client) = Delivered)
          then [Binary data] else [].
Proof.
  intros Hb Hl. cbn [run]. unfold step at 1. rewrite Hb, Hl. cbn [mbind option_bind].
  rewrite run_app.
  edestruct (run_sends_wire json_loads link
               (Server (clients s) true
                  (Sending data (elements (clients s)) round_start)
                  (handlers s) (wire s)))
    as (s1 & Hrun & Hb1 & Hc1 & _ & Hh1 & Hw1); [done|apply NoDup_elements|].
  rewrite Hrun. cbn [mbind option_bind run]. unfold step. rewrite Hb1.
  eexists. split; [reflexivity|]. cbn. rewrite Hc1. split_and!; try done.
  intros client. rewrite Hw1. cbn. f_equal.
  destruct (decide (client ∈ elements (clients s) ∧ _)) as [[Hin Hok]|Hno].
  - rewrite decide_True; [done|]. split; [by apply elem_of_elements|done].
  - rewrite decide_False; [done|]. intros [Hin Hok]. apply Hno.
    split; [by apply elem_of_elements|done].
Qed.

Lemma round_is_fan_out_witness :
  ∃ s', run loads_sample
          (RoundBegin sample_payload
             :: (RoundSend ∘ link_2_broken <$> elements three_clients)
             ++ [RoundEnd]) three_served = Some s' ∧
        clients s' = (fan_out sample_payload link_2_broken three_clients).1.
Proof.
  destruct (round_is_fan_out loads_sample link_2_broken three_served sample_payload)
    as (s' & Hrun & Hc & _).
  - reflexivity.
  - reflexivity.
  - exists s'. split; [exact Hrun|exact Hc].
Defined.

(** ** The control service *)

Example int_decimal_sample :
  int_decimal (lit " -12") = Ok (-12)%Z ∧
  int_decimal (lit "7") = Ok 7%Z ∧
  int_decimal (lit "x") = Raise OtherException.
Proof. vm_compute. done. Qed.

Example split_comma_sample :
  split_comma (lit "3,-40") = [lit "3"; lit "-40"] ∧
  split_comma (lit "go") = [lit "go"] ∧
  split_comma (lit "1,2,") = [lit "1"; lit "2"; []].
Proof. vm_compute. done. Qed.

Lemma lit_String c s : lit (String c s) = N_of_ascii c :: lit s.
Proof. done. Qed.

Lemma pretty_N_char_digit x : number_char (N_of_ascii (pretty_N_char x)).
Proof.
  unfold number_char, pretty_N_char. repeat case_match; cbn; lia.
Qed.

Lemma pretty_N_go_chars x s :
  Forall number_char (lit s) → Forall number_char (lit (pretty_N_go x s)).
Proof.
  revert s. induction (N.lt_wf_0 x) as [x _ IH]; intros s Hs.
  assert (x = 0 ∨ 0 < x)%N as [->|Hx] by lia.
  - by rewrite pretty_N_go_0.
  - rewrite pretty_N_go_step by done. apply IH; [by apply N.div_lt|].
    rewrite lit_String. constructor; [apply pretty_N_char_digit|done].
Qed.

Lemma pretty_N_chars (x : N) : Forall number_char (lit (pretty x)).
Proof.
  unfold pretty, pretty_N. case_decide.
  - apply Forall_singleton. right. cbn. lia.
  - apply pretty_N_go_chars. constructor.
Qed.

Lemma pretty_Z_chars (z : Z) : Forall number_char (lit (pretty z)).
Proof.
  destruct z as [|p|p]; unfold pretty, pretty_Z.
  - apply Forall_singleton. right. cbn. lia.
  - apply (pretty_N_chars (N.pos p)).
  - change (lit ("-" +:+ pretty p)) with (45%N :: lit (pretty (N.pos p))).
    constructor; [by left|apply pretty_N_chars].
Qed.

Lemma split_comma_cons_field s : ∃ field fields, split_comma s = field :: fields.
Proof.
  induction s as [|c s (field & fields & IH)]; [by eexists _, _|].
  cbn. destruct (c =? 44)%N; [by eexists _, _|]. rewrite IH. by eexists _, _.
Qed.

(** The first field of a text ends at its first comma. *)
Lemma split_comma_app field rest :
  Forall (λ c, c ≠ 44%N) field →
  split_comma (field ++ 44%N :: rest) = field :: split_comma rest.
Proof.
  induction 1 as [|c field Hc _ IH]; [done|].
  cbn. rewrite (proj2 (N.eqb_neq c 44) Hc), IH. done.
Qed.

Lemma split_comma_one field :
  Forall (λ c, c ≠ 44%N) field → split_comma field = [field].
Proof.
  induction 1 as [|c field Hc _ IH]; [done|].
  cbn. rewrite (proj2 (N.eqb_neq c 44) Hc), IH. done.
Qed.

Lemma number_char_no_comma s :
  Forall number_char s → Forall (λ c, c ≠ 44%N) s.
Proof. intros Hs. eapply Forall_impl; [exact Hs|]. unfold number_char. lia. Qed.

(** The line written for two integers has the two fields it was made of. *)
Lemma split_comma_command_line l r :
  split_comma (command_line l r)
  = [lit (pretty l); lit (pretty r) ++ [10%N]].
Proof.
  unfold command_line. cbn [app].
  rewrite split_comma_app by apply number_char_no_comma, pretty_Z_chars.
  rewrite split_comma_one; [done|]. apply Forall_app. split.
  - apply number_char_no_comma, pretty_Z_chars.
  - by repeat constructor.
Qed.

Lemma deadband_spec v :
  (deadband v = 0 ∨ 5 ≤ Z.abs (deadband v))%Z ∧
  (5 ≤ Z.abs v → deadband v = v)%Z ∧
  (Z.abs v < 5 → deadband v = 0)%Z.
Proof.
  unfold deadband.
  destruct (Z.ltb_spec v 5), (Z.gtb_spec v (-5)); cbn; lia.
Qed.

Section ControlServiceFacts.
Variable py_int : str → result Z.

(** What is written ends in a newline. *)
Lemma joystick_line_newline message line :
  joystick_line py_int (message ++ [10%N]) = Ok line → last line = Some 10%N.
Proof.
  unfold joystick_line.
  destruct (split_comma _) as [|l [|r [|??]]];
    try (intros [= <-]; by rewrite last_snoc).
  destruct (py_int l) as [vl|]; [|done]. destruct (py_int r) as [vr|]; [|done].
  cbn. intros [= <-]. unfold command_line.
  by rewrite !app_assoc, last_snoc.
Qed.

(** X8. For every message of the control connection the handler ends the
    pass through its loop with exactly one effect, a write to the serial
    port or an error reply, or it leaves the loop. It leaves the loop only
    on a binary message or when an error reply cannot be sent: a text
    message is always answered when replies go through, bad numbers and a
    failing serial port included. A write happens only with the port open
    and the write returning, and what is written ends in a newline. *)
Theorem forward_message_answers_once
    (ser : bool) (write : result unit) (reply : send_outcome)
    (message : control_message) :
  (∀ effects, forward_message py_int ser write reply message = Ok effects →
     ∃ m effect, message = ControlText m ∧ effects = [effect]) ∧
  (∀ line, forward_message py_int ser write reply message = Ok [SerialWrite line] →
     ser = true ∧ write = Ok () ∧ last line = Some 10%N ∧
     ∃ m, message = ControlText m ∧
          joystick_line py_int (strip m ++ [10%N]) = Ok line) ∧
  (∀ m, message = ControlText m → reply = Delivered →
     ∃ effect, forward_message py_int ser write reply message = Ok [effect]) ∧
  (∀ e, forward_message py_int ser write reply message = Raise e →
     (∃ data, message = ControlBinary data) ∨ reply = Raised e).
Proof.
  destruct message as [m|data]; cbn [forward_message].
  2:{ split_and!; try done. intros e _. left. by eexists. }
  destruct ser.
  - destruct (joystick_line py_int (strip m ++ [10%N])) as [line|e] eqn:Hline;
      cbn [mbind result_bind].
    + destruct write as [[]|e]; cbn [mbind result_bind].
      * split_and!; try done.
        -- intros effects [= <-]. by eexists _, _.
        -- intros line' [= <-]. split_and!; try done.
           ++ by eapply joystick_line_newline.
           ++ by eexists.
        -- intros m' _ _. by eexists.
      * destruct reply as [|e']; split_and!; try done.
        -- intros effects [= <-]. by eexists _, _.
        -- intros m' _ _. by eexists.
        -- intros e0 [= <-]. by right.
    + destruct reply as [|e']; split_and!; try done.
      * intros effects [= <-]. by eexists _, _.
      * intros m' _ _. by eexists.
      * intros e0 [= <-]. by right.
  - destruct reply as [|e']; split_and!; try done.
    + intros effects [= <-]. by eexists _, _.
    + intros m' _ _. by eexists.
    + intros e0 [= <-]. by right.
Qed.

(** X9. With the port open, a message of two fields that are integers is
    written to the serial port as one line "l,r" and a newline, in which
    a value of magnitude below 5 has become 0 and any other value is as
    it was sent; so every value of a line written this way is 0 or of
    magnitude 5 or more. The line has the two fields it was made of, in
    decimal. *)
Theorem joystick_command_is_deadbanded
    (reply : send_outcome) (m a b : str) (l r : Z) :
  split_comma (strip m ++ [10%N]) = [a; b] →
  py_int a = Ok l → py_int b = Ok r →
  forward_message py_int true (Ok ()) reply (ControlText m)
  = Ok [SerialWrite (command_line (deadband l) (deadband r))] ∧
  (deadband l = 0 ∨ 5 ≤ Z.abs (deadband l))%Z ∧
  (deadband r = 0 ∨ 5 ≤ Z.abs (deadband r))%Z ∧
  (5 ≤ Z.abs l → deadband l = l)%Z ∧ (5 ≤ Z.abs r → deadband r = r)%Z ∧
  split_comma (command_line (deadband l) (deadband r))
  = [lit (pretty (deadband l)); lit (pretty (deadband r)) ++ [10%N]].
Proof.
  intros Hsplit Ha Hb. split_and!.
  - cbn [forward_message]. unfold joystick_line. rewrite Hsplit, Ha. cbn.
    rewrite Hb. done.
  - apply deadband_spec.
  - apply deadband_spec.
  - apply deadband_spec.
  - apply deadband_spec.
  - apply split_comma_command_line.
Qed.
End ControlServiceFacts.

(** X8 on a text message whose first field is no number, with the port
    open: the pass ends with one effect. *)
Lemma forward_message_answers_once_witness :
  ∃ effect,
    forward_message int_decimal true (Ok ()) Delivered (ControlText (lit "3,x"))
    = Ok [effect].
Proof.
  exact (proj1 (proj2 (proj2
    (forward_message_answers_once int_decimal true (Ok ()) Delivered
       (ControlText (lit "3,x"))))) (lit "3,x") eq_refl eq_refl).
Defined.

(** X9 on the message "3,-40": the line written is "0,-40". *)
Lemma joystick_command_is_deadbanded_witness :
  forward_message int_decimal true (Ok ()) Delivered (ControlText (lit " 3,-40 "))
  = Ok [SerialWrite (lit "0,-40" ++ [10%N])].
Proof.
  apply (joystick_command_is_deadbanded int_decimal Delivered (lit " 3,-40 ")
           (lit "3") (lit "-40" ++ [10%N]) 3 (-40)); reflexivity.
Defined.

(** ** When a tick sends *)



(** ** Saved frames and their numbers *)

Lemma omap_snoc {A B} (f : A → option B) l x :
  omap f (l ++ [x]) = omap f l ++ match f x with Some y => [y] | None => [] end.
Proof. rewrite omap_app. cbn. by destruct (f x). Qed.

(** One request: the count moves on by one exactly when the answer is
    "Saved frame n", n being the count before. *)
Lemma save_frame_count req st :
  let '(answer, st') := save_frame req st in
  match answer with
  | SavedFrame n =>
      n = frame_count st ∧ frame_count st' = frame_count st + 1 ∧
      has_latest_frame st = true ∧ capturing req = true ∧
      np_save_indexes (writes st') = np_save_indexes (writes st) ++ [n] ∧
      imwrite_indexes (writes st') = imwrite_indexes (writes st) ++ [n]
  | _ =>
      frame_count st' = frame_count st ∧
      np_save_indexes (writes st') = np_save_indexes (writes st)
  end ∧
  (has_latest_frame st = true → has_latest_frame st' = true).
Proof.
  unfold save_frame. destruct (capturing req); cbn [negb]; [|done].
  destruct (has_latest_frame st) eqn:Hframe; [|done].
  destruct (color_frame_now req) as [[img|]|e]; [|done..].
  destruct (imwrite req) as [ok|e]; [|done].
  destruct (np_save req) as [[]|e]; cbn.
  - unfold np_save_indexes, imwrite_indexes.
    rewrite !omap_snoc. cbn. rewrite !app_nil_r. done.
  - split; [|done]. split; [done|].
    unfold np_save_indexes. rewrite omap_snoc. cbn. by rewrite app_nil_r.
Qed.

(** X10. Saved frames are numbered without gaps or repeats: over any
    series of requests to [/save_frame] (in or out of capture mode, with
    captures or writes that fail) and of frames stored in between, the
    answers "Saved frame n" name, in order, the numbers from the count at
    the beginning up to the count at the end, and the intrinsics files
    written bear these same numbers, once each. From a fresh recorder the
    k-th successful save is frame k-1 and [frame_count] is the number of
    successful saves. *)
Theorem saved_frames_are_numbered_in_turn
    (events : list recorder_event) (st : recorder) :
  let '(answers, final) := record events st in
  frame_count st ≤ frame_count final ∧
  saved_indexes answers
  = seq (frame_count st) (frame_count final - frame_count st) ∧
  np_save_indexes (writes final)
  = np_save_indexes (writes st) ++ saved_indexes answers ∧
  (st = recorder_start →
     saved_indexes answers = seq 0 (frame_count final) ∧
     np_save_indexes (writes final) = seq 0 (frame_count final) ∧
     length (saved_indexes answers) = frame_count final).
Proof.
  assert (Hmain : ∀ events st,
    let '(answers, final) := record events st in
    frame_count st ≤ frame_count final ∧
    saved_indexes answers
    = seq (frame_count st) (frame_count final - frame_count st) ∧
    np_save_indexes (writes final)
    = np_save_indexes (writes st) ++ saved_indexes answers).
  { clear. induction events as [|[|req] events IH]; intros st.
    - cbn. rewrite Nat.sub_diag, app_nil_r. done.
    - cbn [record]. apply (IH (Recorder (frame_count st) true (writes st))).
    - cbn [record]. pose proof (save_frame_count req st) as Hsave.
      destruct (save_frame req st) as [answer st']. specialize (IH st').
      destruct (record events st') as [answers final].
      destruct IH as (Hle & Hsaved & Hnp). destruct Hsave as [Hsave _].
      assert (Hcons : saved_indexes (answer :: answers)
                = match answer with
                  | SavedFrame n => n :: saved_indexes answers
                  | _ => saved_indexes answers
                  end) by (by destruct answer).
      rewrite Hcons. clear Hcons. destruct answer as [|n| |e].
      + destruct Hsave as [Hc Hw]. rewrite <- Hc, <- Hw. done.
      + destruct Hsave as (-> & Hc & _ & _ & Hw & _). split_and!.
        * lia.
        * rewrite Hsaved, Hc.
          replace (frame_count final - frame_count st)
            with (S (frame_count final - (frame_count st + 1))) by lia.
          cbn [seq]. by rewrite Nat.add_1_r.
        * rewrite Hnp, Hw, <- app_assoc. done.
      + destruct Hsave as [Hc Hw]. rewrite <- Hc, <- Hw. done.
      + destruct Hsave as [Hc Hw]. rewrite <- Hc, <- Hw. done. }
  specialize (Hmain events st). destruct (record events st) as [answers final].
  destruct Hmain as (Hle & Hsaved & Hnp). split_and!; try done.
  intros ->. cbn in *. rewrite Nat.sub_0_r in Hsaved.
  rewrite Hnp, Hsaved, length_seq. done.
Qed.

(** X10 on a series with a failing write and a request out of capture
    mode among three good requests. *)
Lemma saved_frames_are_numbered_in_turn_witness :
  (record [Save save_fine; StoreFrame; Save save_fine; Save save_np_fails;
           Save save_not_capturing; Save save_fine; Save save_fine]
          recorder_start).1
  = [FailedToSave; SavedFrame 0; ServerError OtherException;
     NotInCaptureMode; SavedFrame 1; SavedFrame 2].
Proof.
  pose proof (saved_frames_are_numbered_in_turn
                [Save save_fine; StoreFrame; Save save_fine; Save save_np_fails;
                 Save save_not_capturing; Save save_fine; Save save_fine]
                recorder_start) as H.
  destruct (record _ recorder_start) as [answers final] eqn:Hrec.
  destruct H as (_ & _ & _ & H). destruct (H eq_refl) as (_ & _ & _).
  vm_compute in Hrec. by injection Hrec as <- _.
Defined.

(** ** The size and the shape of a snapshot *)

Lemma length_range start stop step :
  length (range start stop step) = (stop - start + (step - 1)) / step.
Proof. unfold range. by rewrite length_fmap, length_seq. Qed.

Lemma length_sampled_pixels height width :
  length (sampled_pixels height width) = ((height + 1) / 2) * ((width + 1) / 2).
Proof.
  assert (Hlen : ∀ n, length (range 0 n 2) = (n + 1) / 2).
  { intros n. rewrite length_range. f_equal. lia. }
  unfold sampled_pixels. rewrite <- !Hlen.
  assert (Hrow : ∀ y : nat,
            length (x ← range 0 width 2; [(y, x)]) = length (range 0 width 2)).
  { intros y. induction (range 0 width 2) as [|x xs IH]; [done|].
    cbn. by rewrite IH. }
  induction (range 0 height 2) as [|y ys IH]; [done|].
  rewrite bind_cons, length_app, Hrow, IH. cbn [length]. lia.
Qed.

(** X11. A snapshot the builder returns holds at most one point for every
    block of two by two depth pixels, and exactly that many when every
    sampled pixel carries a reading; every point is a list of three
    numbers whose third is the depth in meters of some sampled pixel with
    a reading, every color is a list of three numbers, and the timestamp
    is the time the snapshot was built at. *)
Theorem snapshot_is_a_quarter_of_the_grid
    (self_intrinsics : option intrinsics) (df : depth_frame) (cf : color_frame)
    (now : float) (pc : point_cloud) :
  generate_point_cloud self_intrinsics df cf now = Some pc →
  let cells := ((rows (depth_data df) + 1) / 2) * ((cols (depth_data df) + 1) / 2) in
  length (points pc) ≤ cells ∧
  (Forall (λ p, (item (depth_data df) p.1 p.2 ≠ 0)%N)
     (sampled_pixels (rows (depth_data df)) (cols (depth_data df))) →
   length (points pc) = cells) ∧
  Forall (λ point, ∃ x y y' x',
            point = [x; y; (float_of_N (item (depth_data df) y' x') * get_units df)%float] ∧
            (y', x') ∈ sampled_pixels (rows (depth_data df)) (cols (depth_data df)) ∧
            (item (depth_data df) y' x' ≠ 0)%N)
         (points pc) ∧
  Forall (λ color, length color = 3) (colors pc) ∧
  timestamp pc = now.
Proof.
  intros Hpc cells.
  assert (∃ i, pc = cloud_of i df cf now) as [i ->].
  { pose proof (generate_point_cloud_spec self_intrinsics df cf now) as H.
    rewrite Hpc in H. destruct H as [[_ Hall] Heq].
    destruct self_intrinsics as [i|].
    - exists i. apply Heq. by left.
    - exists (Intrinsics 0 0 0 0). apply Heq. right.
      destruct (valid_pixels (depth_data df)) as [|p ps]; [done|].
      inversion Hall as [|?? [[? Hnone] _] _]. discriminate Hnone. }
  cbn [points colors timestamp cloud_of]. rewrite !length_fmap.
  unfold valid_pixels, cells. rewrite <- length_sampled_pixels.
  split_and!.
  - apply length_filter.
  - intros Hall. f_equal. clear -Hall.
    induction Hall as [|p ps Hp _ IH]; [done|].
    by rewrite filter_cons_True, IH.
  - apply Forall_fmap, Forall_forall. intros [y x] Hp.
    apply list_elem_of_filter in Hp as [Hd Hp]. cbn [fst snd] in *.
    by eexists _, _, y, x.
  - apply Forall_fmap, Forall_forall. by intros [y x] _.
  - done.
Qed.

(** X11 on the frame pair [small_depth], [small_color]: at most six
    points. *)
Lemma snapshot_is_a_quarter_of_the_grid_witness :
  ∃ pc, generate_point_cloud (Some calibration_600) small_depth small_color 0
        = Some pc ∧
        length (points pc) ≤ 6.
Proof.
  destruct (generate_point_cloud (Some calibration_600) small_depth small_color 0)
    as [pc|] eqn:Hpc; [|vm_compute in Hpc; discriminate Hpc].
  exists pc. split; [done|].
  exact (proj1 (snapshot_is_a_quarter_of_the_grid
                  (Some calibration_600) small_depth small_color 0%float pc Hpc)).
Defined.

(** ** A payload read back *)

Lemma chars_app (a b : string) :
  list_ascii_of_string (a +:+ b)
  = list_ascii_of_string a ++ list_ascii_of_string b.
Proof. induction a as [|c a IH]; [done|]. simpl. by rewrite IH. Qed.

Lemma concat_chars {A} (f : A → string) x xs rest :
  list_ascii_of_string (String.concat ", " (f x :: (f <$> xs))) ++ "]"%char :: rest
  = list_ascii_of_string (f x) ++ array_tail (list_ascii_of_string ∘ f) xs rest.
Proof.
  revert x. induction xs as [|y xs IH]; intros x; [done|].
  change (String.concat ", " (f x :: (f <$> y :: xs)))
    with (f x +:+ ", " +:+ String.concat ", " (f y :: (f <$> xs))).
  rewrite !chars_app. cbn [list_ascii_of_string app array_tail].
  rewrite <- !app_assoc. cbn [app]. by rewrite IH.
Qed.

(** The text of an array, as [json_array] writes it. *)
Lemma json_array_chars {A} (f : A → string) xs rest :
  list_ascii_of_string (json_array (f <$> xs)) ++ rest
  = array_text (list_ascii_of_string ∘ f) xs rest.
Proof.
  unfold json_array, array_text. rewrite !chars_app.
  cbn [list_ascii_of_string app]. f_equal. rewrite <- app_assoc. cbn [app].
  destruct xs as [|x xs]; [done|]. apply concat_chars.
Qed.

Lemma length_array_tail {A} (enc : A → list ascii) xs rest :
  length (array_tail enc xs rest) = length (array_tail enc xs []) + length rest.
Proof.
  induction xs as [|x xs IH]; cbn; [done|]. rewrite !length_app, IH. lia.
Qed.

Lemma length_array_text {A} (enc : A → list ascii) xs rest :
  length (array_text enc xs rest) = length (array_text enc xs []) + length rest.
Proof.
  destruct xs as [|x xs]; cbn; [done|].
  rewrite !length_app, length_array_tail. lia.
Qed.

Lemma array_text_app {A} (enc : A → list ascii) xs rest :
  array_text enc xs [] ++ rest = array_text enc xs rest.
Proof.
  assert (Htail : ∀ ys, array_tail enc ys [] ++ rest = array_tail enc ys rest).
  { induction ys as [|y ys IH]; [done|]. cbn. by rewrite <- app_assoc, IH. }
  destruct xs as [|x xs]; [done|]. cbn. by rewrite <- app_assoc, Htail.
Qed.

#[local] Abbreviation read_value_body := read_value.
#[local] Abbreviation read_items_body := read_items.
#[local] Abbreviation read_members_body := read_members.

(** A text that goes on with a character that ends a token, or is over. *)
#[local] Abbreviation token_over rest :=
  (match rest with [] => True | c :: _ => ends_token c = true end).

Section ReaderFacts.
Variable float_of_text : string → option float.
#[local] Abbreviation read_atom := (read_atom float_of_text).
#[local] Abbreviation read_value := (read_value float_of_text).
#[local] Abbreviation read_items := (read_items float_of_text).
#[local] Abbreviation read_members := (read_members float_of_text).

Lemma token_spec t rest :
  Forall (λ c, ends_token c = false) t → token_over rest →
  token (t ++ rest) = (t, rest).
Proof.
  intros Ht Hrest. induction Ht as [|c t Hc _ IH]; cbn [app token].
  - destruct rest as [|c r]; [done|]. cbn [token]. by rewrite Hrest.
  - by rewrite Hc, IH.
Qed.

Lemma read_value_space fuel s : read_value fuel (" "%char :: s) = read_value fuel s.
Proof. by destruct fuel. Qed.

Lemma read_items_space fuel s : read_items fuel (" "%char :: s) = read_items fuel s.
Proof. destruct fuel; [done|]. cbn. by rewrite read_value_space. Qed.

Lemma read_value_atom fuel t rest v :
  t ≠ [] →
  Forall (λ c, ends_token c = false ∧ opens_value c = false) t →
  token_over rest →
  read_atom t = Some v →
  read_value (S fuel) (t ++ rest) = Some (v, rest).
Proof.
  intros Hne Ht Hrest Hv. destruct t as [|c t]; [done|].
  assert (Htok : token ((c :: t) ++ rest) = (c :: t, rest)).
  { apply token_spec; [|done]. eapply Forall_impl; [exact Ht|]. by intros ? [? _]. }
  inversion Ht as [|?? [Hend Hopen] _]; subst.
  unfold ends_token in Hend. unfold opens_value in Hopen.
  apply orb_false_elim in Hend as [_ Hws].
  apply orb_false_elim in Hopen as [Hopen Hquote].
  apply orb_false_elim in Hopen as [Hbracket Hbrace].
  cbn [read_value_body app skip_whitespace]. rewrite Hws, Hbracket, Hbrace, Hquote.
  cbn [app] in Htok. rewrite Htok. cbn. by rewrite Hv.
Qed.

Lemma read_string_quoted key rest :
  Forall (λ c, Ascii.eqb c "034" = false ∧ Ascii.eqb c "092" = false)
         (list_ascii_of_string key) →
  read_string (list_ascii_of_string key ++ "034"%char :: rest) = Some (key, rest).
Proof.
  induction key as [|c key IH]; intros Hkey; [done|].
  inversion Hkey as [|?? [Hq Hb] Hkey']; subst.
  cbn [list_ascii_of_string app read_string]. rewrite Hq, Hb, (IH Hkey'). done.
Qed.

Lemma read_members_space fuel s :
  read_members fuel (" "%char :: s) = read_members fuel s.
Proof. by destruct fuel. Qed.

(** One member of an object: its key, the colon, its value, and what
    comes after the value. *)
Lemma read_members_step fuel key s v c rest :
  Forall (λ c, Ascii.eqb c "034" = false ∧ Ascii.eqb c "092" = false)
         (list_ascii_of_string key) →
  read_value fuel s = Some (v, c :: rest) →
  is_whitespace c = false →
  read_members (S fuel)
    ("034"%char :: list_ascii_of_string key ++ "034"%char :: ":"%char :: s)
  = if Ascii.eqb c "," then
      '(d, rest') ← read_members fuel rest; Some (dict_cons key v d, rest')
    else if Ascii.eqb c "}" then Some ([(key, v)], rest)
    else None.
Proof.
  intros Hkey Hv Hc. cbn [read_members_body skip_whitespace].
  change (is_whitespace "034") with false. cbv iota.
  change (Ascii.eqb "034" "034") with true. cbv iota.
  rewrite (read_string_quoted _ _ Hkey). cbn [mbind option_bind skip_whitespace].
  change (is_whitespace ":") with false. cbv iota.
  change (Ascii.eqb ":" ":") with true. cbv iota.
  rewrite Hv. cbn [mbind option_bind skip_whitespace]. rewrite Hc. done.
Qed.

Section Arrays.
Context {A : Type} (enc : A → list ascii) (val : A → json) (P : A → Prop).
Hypothesis Hitem : ∀ x rest fuel,
  P x → token_over rest → length (enc x) ≤ fuel →
  read_value fuel (enc x ++ rest) = Some (val x, rest).
Hypothesis Hopen : ∀ x,
  P x → ∃ c cs, enc x = c :: cs ∧ is_whitespace c = false ∧
                Ascii.eqb c "]" = false.

Lemma read_items_array xs :
  Forall P xs → ∀ x rest fuel,
  P x → length (enc x ++ array_tail enc xs []) ≤ fuel →
  read_items fuel (enc x ++ array_tail enc xs rest)
  = Some (val x :: (val <$> xs), rest).
Proof using Hitem.
  induction 1 as [|y ys Hy _ IH]; intros x rest fuel Hx Hfuel;
    rewrite length_app in Hfuel; cbn [array_tail length] in Hfuel;
    (destruct fuel as [|fuel]; [lia|]); cbn [read_items_body array_tail].
  - rewrite Hitem; [|done|done|lia]. done.
  - rewrite Hitem; [|done|done|lia]. cbn [mbind option_bind skip_whitespace].
    change (is_whitespace ",") with false. cbv iota.
    change (Ascii.eqb "," ",") with true. cbv iota.
    rewrite read_items_space, IH; [done|done|].
    rewrite length_app in Hfuel. rewrite length_app. cbn [length] in Hfuel. lia.
Qed.

Lemma read_value_array xs rest fuel :
  Forall P xs → length (array_text enc xs []) ≤ fuel →
  read_value fuel (array_text enc xs rest)
  = Some (JList (val <$> xs), rest).
Proof using Hitem Hopen.
  intros Hxs Hfuel. destruct Hxs as [|x xs Hx Hxs]; cbn [array_text length] in *;
    (destruct fuel as [|fuel]; [lia|]).
  - done.
  - destruct (Hopen x Hx) as (c & cs & Henc & Hws & Hclose).
    unfold array_text. cbn [read_value_body skip_whitespace].
    change (is_whitespace "[") with false. cbv iota.
    change (Ascii.eqb "[" "[") with true. cbv iota.
    rewrite Henc at 1. cbn [app skip_whitespace]. rewrite Hws, Hclose.
    rewrite read_items_array; [done|done|done|lia].
Qed.
End Arrays.
End ReaderFacts.

(** *** Integers in decimal *)

Lemma pretty_N_char_code d :
  (d < 10)%N → N_of_ascii (pretty_N_char d) = (48 + d)%N.
Proof.
  intros Hd.
  assert (d = 0 ∨ d = 1 ∨ d = 2 ∨ d = 3 ∨ d = 4 ∨ d = 5 ∨ d = 6 ∨ d = 7 ∨
          d = 8 ∨ d = 9)%N as H by lia.
  destruct_or!; subst; reflexivity.
Qed.

Lemma digits_value_pretty_go x :
  ∃ k : Z, (0 ≤ k)%Z ∧
    ∀ acc s, digits_value acc (lit (pretty_N_go x s))
             = digits_value (acc * 10 ^ k + Z.of_N x) (lit s).
Proof.
  induction (N.lt_wf_0 x) as [x _ IH].
  assert (x = 0 ∨ 0 < x)%N as [->|Hx] by lia.
  - exists 0%Z. split; [lia|]. intros acc s. rewrite pretty_N_go_0. f_equal. lia.
  - destruct (IH (x `div` 10)%N) as (k & Hk & IHk); [by apply N.div_lt|].
    exists (k + 1)%Z. split; [lia|]. intros acc s.
    rewrite pretty_N_go_step by done. rewrite IHk, lit_String.
    cbn [digits_value]. rewrite pretty_N_char_code by (apply N.mod_lt; lia).
    assert (Hmod : (x `mod` 10 < 10)%N) by (apply N.mod_lt; lia).
    pose proof (N.div_mod x 10 ltac:(lia)) as Hdiv.
    generalize dependent (x `mod` 10)%N. intros d Hd Hdiv.
    generalize dependent (x `div` 10)%N. intros q _ Hdiv.
    replace ((48 <=? 48 + d) && (48 + d <=? 57))%N with true
      by (symmetry; apply andb_true_intro; split; apply N.leb_le; lia).
    f_equal. rewrite Z.pow_add_r by lia.
    replace (48 + d - 48)%N with d by lia. subst x. lia.
Qed.

Lemma pretty_N_go_leads x s :
  (0 < x)%N →
  ∃ c t, list_ascii_of_string (pretty_N_go x s) = c :: t ∧
         Ascii.eqb c "0" = false ∧ Ascii.eqb c "-" = false.
Proof.
  revert s. induction (N.lt_wf_0 x) as [x _ IH]; intros s Hx.
  rewrite pretty_N_go_step by done.
  assert (Hcode : N_of_ascii (pretty_N_char (x `mod` 10)) = (48 + x `mod` 10)%N)
    by (apply pretty_N_char_code, N.mod_lt; lia).
  pose proof (N.div_mod x 10 ltac:(lia)) as Hdm.
  pose proof (N.div_lt x 10 Hx ltac:(lia)) as Hlt.
  destruct (decide (x `div` 10 = 0)%N) as [Hdiv|Hdiv].
  - rewrite Hdiv, pretty_N_go_0. eexists _, _. split; [reflexivity|].
    rewrite Hdiv in Hdm. generalize dependent (x `mod` 10)%N. intros d Hcode Hdm.
    split.
    + destruct (Ascii.eqb_spec (pretty_N_char d) "0") as [Heq|]; [|done].
      rewrite Heq in Hcode. cbn in Hcode. lia.
    + destruct (Ascii.eqb_spec (pretty_N_char d) "-") as [Heq|]; [|done].
      rewrite Heq in Hcode. cbn in Hcode. lia.
  - apply IH; [done|]. generalize dependent (x `div` 10)%N. intros. lia.
Qed.

Lemma int_literal_pretty (n : N) :
  int_literal (list_ascii_of_string (pretty n)) = Some (Z.of_N n).
Proof.
  unfold pretty, pretty_N. case_decide as Hn; [by subst|].
  destruct (pretty_N_go_leads n "") as (c & t & Heq & Hzero & Hminus); [lia|].
  unfold int_literal, natural_literal. rewrite Heq, Hminus, Hzero, <- Heq.
  destruct (digits_value_pretty_go n) as (k & _ & Hvalue).
  change (N_of_ascii <$> list_ascii_of_string (pretty_N_go n ""))
    with (lit (pretty_N_go n "")).
  rewrite Hvalue. cbn. f_equal; lia.
Qed.

Lemma number_char_plain c :
  number_char (N_of_ascii c) → ends_token c = false ∧ opens_value c = false.
Proof.
  unfold ends_token, opens_value, is_whitespace, number_char. intros H.
  repeat match goal with
  | |- context [Ascii.eqb c ?d] =>
      destruct (Ascii.eqb_spec c d) as [->|_]; [cbn in H; lia|]
  end.
  done.
Qed.

Lemma pretty_N_plain (n : N) :
  Forall (λ c, ends_token c = false ∧ opens_value c = false)
         (list_ascii_of_string (pretty n)).
Proof.
  pose proof (pretty_N_chars n) as H. unfold lit in H.
  rewrite Forall_fmap in H. eapply Forall_impl; [exact H|].
  intros c Hc. by apply number_char_plain.
Qed.

(** *** The text of a snapshot *)

Section SnapshotFacts.
Variable float_repr : float → string.
Variable float_of_text : string → option float.
#[local] Abbreviation reads_back := (float_reads_back float_repr float_of_text).
#[local] Abbreviation read_value := (read_value float_of_text).
#[local] Abbreviation chars := list_ascii_of_string.

Lemma read_float f rest fuel :
  reads_back f → token_over rest → length (chars (float_repr f)) ≤ fuel →
  read_value fuel (chars (float_repr f) ++ rest) = Some (JFloat f, rest).
Proof.
  intros (Hne & Hplain & Hint & Hback) Hrest Hfuel.
  destruct fuel as [|fuel];
    [destruct (chars (float_repr f)); [done|cbn in Hfuel; lia]|].
  apply read_value_atom; [done..|].
  unfold read_atom. by rewrite Hint, string_of_list_ascii_of_string, Hback.
Qed.

Lemma read_int (n : N) rest fuel :
  token_over rest → length (chars (pretty n)) ≤ fuel →
  read_value fuel (chars (pretty n) ++ rest) = Some (JInt (Z.of_N n), rest).
Proof.
  intros Hrest Hfuel.
  assert (Hne : chars (pretty n) ≠ []).
  { intros Hnil. pose proof (int_literal_pretty n) as H. by rewrite Hnil in H. }
  destruct fuel as [|fuel];
    [destruct (chars (pretty n)); [done|cbn in Hfuel; lia]|].
  apply read_value_atom; [done|apply pretty_N_plain|done|].
  unfold read_atom. by rewrite int_literal_pretty.
Qed.

Lemma plain_opens t :
  t ≠ [] → Forall (λ c, ends_token c = false ∧ opens_value c = false) t →
  ∃ c cs, t = c :: cs ∧ is_whitespace c = false ∧ Ascii.eqb c "]" = false.
Proof.
  intros Hne Ht. destruct t as [|c cs]; [done|].
  inversion Ht as [|?? [Hend _] _]; subst. exists c, cs. split; [done|].
  unfold ends_token in Hend.
  apply orb_false_elim in Hend as [Hend Hws].
  apply orb_false_elim in Hend as [Hend _].
  apply orb_false_elim in Hend as [_ Hclose]. done.
Qed.

(** A list of floats, and a list of ints, as [json.dumps] writes them. *)
Lemma read_point (p : list float) rest fuel :
  Forall reads_back p →
  length (chars (json_array (float_repr <$> p))) ≤ fuel →
  read_value fuel (chars (json_array (float_repr <$> p)) ++ rest)
  = Some (JList (JFloat <$> p), rest).
Proof.
  intros Hp Hfuel.
  rewrite <- (app_nil_r (chars _)), json_array_chars in Hfuel.
  rewrite json_array_chars.
  apply (read_value_array float_of_text (chars ∘ float_repr) JFloat reads_back);
    [|  |done|done].
  - intros f rest' fuel' Hf Hrest Hlen. by apply read_float.
  - intros f (Hne & Hplain & _). by apply plain_opens.
Qed.

Lemma read_color (c : list N) rest fuel :
  length (chars (json_array (pretty <$> c))) ≤ fuel →
  read_value fuel (chars (json_array (pretty <$> c)) ++ rest)
  = Some (JList ((λ n, JInt (Z.of_N n)) <$> c), rest).
Proof.
  intros Hfuel.
  rewrite <- (app_nil_r (chars _)), json_array_chars in Hfuel.
  rewrite json_array_chars.
  apply (read_value_array float_of_text (chars ∘ pretty)
           (λ n, JInt (Z.of_N n)) (λ _, True)); [| |by apply Forall_true|done].
  - intros n rest' fuel' _ Hrest Hlen. by apply read_int.
  - intros n _. unfold compose. apply plain_opens; [|apply pretty_N_plain].
    intros Hnil. pose proof (int_literal_pretty n) as H. by rewrite Hnil in H.
Qed.

Lemma read_points (ps : list (list float)) rest fuel :
  Forall (Forall reads_back) ps →
  length (array_text (chars ∘ (λ p, json_array (float_repr <$> p))) ps []) ≤ fuel →
  read_value fuel
    (array_text (chars ∘ (λ p, json_array (float_repr <$> p))) ps rest)
  = Some (JList ((λ p, JList (JFloat <$> p)) <$> ps), rest).
Proof.
  intros Hps Hfuel.
  apply (read_value_array float_of_text _ (λ p, JList (JFloat <$> p))
           (Forall reads_back)); [| |done|done].
  - intros p rest' fuel' Hp _ Hlen. by apply read_point.
  - intros p _. unfold compose, json_array. by eexists _, _.
Qed.

Lemma read_colors (cs : list (list N)) rest fuel :
  length (array_text (chars ∘ (λ c, json_array (pretty <$> c))) cs []) ≤ fuel →
  read_value fuel
    (array_text (chars ∘ (λ c, json_array (pretty <$> c))) cs rest)
  = Some (JList ((λ c, JList ((λ n, JInt (Z.of_N n)) <$> c)) <$> cs), rest).
Proof.
  intros Hfuel.
  apply (read_value_array float_of_text _
           (λ c, JList ((λ n, JInt (Z.of_N n)) <$> c)) (λ _, True));
    [| |by apply Forall_true|done].
  - intros c rest' fuel' _ _ Hlen. by apply read_color.
  - intros c _. unfold compose, json_array. by eexists _, _.
Qed.

(** The text [json.dumps] writes for a snapshot, piece by piece. *)
Lemma snapshot_chars pc :
  chars (json_dumps_point_cloud float_repr pc)
  = "{"%char :: "034"%char :: chars "points" ++ "034"%char :: ":"%char :: " "%char ::
    array_text (chars ∘ (λ p, json_array (float_repr <$> p))) (points pc)
      (","%char :: " "%char :: "034"%char :: chars "colors" ++
       "034"%char :: ":"%char :: " "%char ::
       array_text (chars ∘ (λ c, json_array (pretty <$> c))) (colors pc)
         (","%char :: " "%char :: "034"%char :: chars "timestamp" ++
          "034"%char :: ":"%char :: " "%char ::
          chars (float_repr (timestamp pc)) ++ ["}"%char])).
Proof.
  unfold json_dumps_point_cloud, quoted. rewrite !chars_app.
  rewrite !json_array_chars. reflexivity.
Qed.

Lemma Forall_concat_inv {A} (P : A → Prop) (ls : list (list A)) :
  Forall P (concat ls) → Forall (Forall P) ls.
Proof.
  induction ls as [|l ls IH]; cbn; [constructor|].
  rewrite Forall_app. intros [Hl Hls]. constructor; [done|by apply IH].
Qed.

Lemma key_plain_points :
  Forall (λ c, Ascii.eqb c "034" = false ∧ Ascii.eqb c "092" = false)
         (chars "points").
Proof. repeat constructor. Qed.

Lemma key_plain_colors :
  Forall (λ c, Ascii.eqb c "034" = false ∧ Ascii.eqb c "092" = false)
         (chars "colors").
Proof. repeat constructor. Qed.

Lemma key_plain_timestamp :
  Forall (λ c, Ascii.eqb c "034" = false ∧ Ascii.eqb c "092" = false)
         (chars "timestamp").
Proof. repeat constructor. Qed.

(** The reader gives back the dict the text was written for. *)
Lemma read_snapshot pc fuel :
  Forall reads_back (numbers pc) →
  length (chars (json_dumps_point_cloud float_repr pc)) ≤ fuel →
  read_value fuel (chars (json_dumps_point_cloud float_repr pc))
  = Some (snapshot_dict pc, []).
Proof.
  unfold numbers. rewrite Forall_app, Forall_singleton. intros [Hps Hts].
  apply Forall_concat_inv in Hps. rewrite snapshot_chars.
  set (points_text := array_text _ (points pc)).
  set (colors_text := array_text _ (colors pc)).
  intros Hfuel.
  assert (Hlen : 4 + length (points_text []) + length (colors_text [])
                 + length (chars (float_repr (timestamp pc))) ≤ fuel).
  { cbn [length app list_ascii_of_string] in Hfuel.
    unfold points_text, colors_text in *.
    rewrite ?length_app in Hfuel. cbn [length] in Hfuel.
    rewrite (length_array_text _ (points pc) (_ :: _)) in Hfuel.
    cbn [length] in Hfuel. rewrite ?length_app in Hfuel. cbn [length] in Hfuel.
    rewrite (length_array_text _ (colors pc) (_ :: _)) in Hfuel.
    cbn [length] in Hfuel. rewrite ?length_app in Hfuel. cbn [length] in Hfuel.
    lia. }
  clear Hfuel.
  destruct fuel as [|fuel]; [lia|]. destruct fuel as [|fuel1]; [lia|].
  destruct fuel1 as [|fuel2]; [lia|]. destruct fuel2 as [|fuel3]; [lia|].
  cbn [read_value_body skip_whitespace app].
  change (is_whitespace "{") with false. cbv iota.
  change (Ascii.eqb "{" "[") with false. cbv iota.
  change (Ascii.eqb "{" "{") with true. cbv iota.
  change (is_whitespace "034") with false. cbv iota.
  change (Ascii.eqb "034" "}") with false. cbv iota.
  erewrite (read_members_step float_of_text (S (S fuel3)) "points");
    [|apply key_plain_points
     |rewrite read_value_space; apply read_points; [done|unfold points_text in Hlen; lia]
     |reflexivity].
  change (Ascii.eqb "," ",") with true. cbv iota.
  rewrite read_members_space.
  erewrite (read_members_step float_of_text (S fuel3) "colors");
    [|apply key_plain_colors
     |rewrite read_value_space; apply read_colors; unfold colors_text in Hlen; lia
     |reflexivity].
  change (Ascii.eqb "," ",") with true. cbv iota.
  rewrite read_members_space.
  erewrite (read_members_step float_of_text fuel3 "timestamp");
    [|apply key_plain_timestamp
     |rewrite read_value_space; apply read_float; [done|done|lia]
     |reflexivity].
  reflexivity.
Qed.
End SnapshotFacts.

(** *** Python's [==] on snapshots *)

Lemma py_eq_JList_same {A} (f : A → json) (xs : list A) :
  py_eq (JList (f <$> xs)) (JList (f <$> xs))
  = forallb (λ x, py_eq (f x) (f x)) xs.
Proof.
  cbn [py_eq]. induction xs as [|x xs IH]; [done|].
  cbn [fmap list_fmap forallb]. by rewrite <- IH.
Qed.

Lemma py_eq_snapshot pc :
  py_eq (snapshot_dict pc) (snapshot_dict pc)
  = forallb (λ p, forallb (λ f, (f =? f)%float) p) (points pc)
    && (timestamp pc =? timestamp pc)%float.
Proof.
  unfold snapshot_dict.
  set (ps := JList (_ <$> points pc)). set (cs := JList (_ <$> colors pc)).
  change (py_eq (JDict _) (JDict _))
    with (py_eq ps ps &&
          (py_eq cs cs && ((timestamp pc =? timestamp pc)%float && true))).
  assert (Hcs : py_eq cs cs = true).
  { unfold cs. rewrite py_eq_JList_same. apply forallb_forall. intros c _.
    rewrite py_eq_JList_same. apply forallb_forall. intros n _.
    apply Z.eqb_refl. }
  rewrite Hcs, andb_true_r. cbn [andb]. f_equal.
  unfold ps. rewrite py_eq_JList_same.
  induction (points pc) as [|p l IH]; [done|].
  cbn [forallb]. by rewrite py_eq_JList_same, IH.
Qed.

Lemma forallb_eqb_floats (l : list float) :
  forallb (λ f, (f =? f)%float) l = true ↔ Forall (λ f, is_nan f = false) l.
Proof.
  rewrite forallb_forall, Forall_forall. unfold is_nan.
  split; intros H f Hf.
  - rewrite (H f); [done|]. by apply list_elem_of_In.
  - apply list_elem_of_In in Hf. specialize (H f Hf).
    by apply negb_false_iff in H.
Qed.

(** A snapshot is [==] to the snapshot with the same numbers exactly when
    none of its numbers is NaN. *)
Lemma py_eq_snapshot_nan pc :
  py_eq (snapshot_dict pc) (snapshot_dict pc) = true ↔
  Forall (λ f, is_nan f = false) (numbers pc).
Proof.
  rewrite py_eq_snapshot, andb_true_iff. unfold numbers.
  rewrite Forall_app, Forall_singleton. unfold is_nan at 2.
  rewrite negb_false_iff. apply and_iff_compat_r.
  rewrite forallb_forall. split.
  - intros H. apply Forall_concat. apply Forall_forall. intros p Hp.
    apply forallb_eqb_floats, H. by apply list_elem_of_In.
  - intros H p Hp. apply forallb_eqb_floats.
    apply Forall_concat_inv in H. rewrite Forall_forall in H.
    apply H. by apply list_elem_of_In.
Qed.

(** NaN is [==] to nothing. *)
Lemma eqb_nan (g : float) : (g =? nan)%float = false.
Proof.
  rewrite FloatAxioms.eqb_spec. change (Prim2SF nan) with S754_nan.
  by destruct (Prim2SF g).
Qed.

Lemma py_eq_nan (v : json) : py_eq v (JFloat nan) = false.
Proof.
  destruct v as [|b|z|g|s|l|d]; try reflexivity.
  cbn. apply eqb_nan.
Qed.

Lemma lookup_key_Some k d v :
  lookup_key k d = Some v →
  ∃ k', (k', v) ∈ d ∧ String.eqb k' k = true.
Proof.
  induction d as [|[k0 v0] d IH]; cbn; [done|].
  destruct (String.eqb k0 k) eqn:Hk.
  - intros [= ->]. exists k0. split; [by left|done].
  - intros H. destruct (IH H) as (k' & Hin & Hk'). exists k'.
    split; [by right|done].
Qed.

Lemma py_eq_JDict d d' :
  py_eq (JDict d) (JDict d') = true →
  (∀ k v', lookup_key k d' = Some v' → is_Some (lookup_key k d)) ∧
  (∀ k v, (k, v) ∈ d →
     ∃ v', lookup_key k d' = Some v' ∧ py_eq v v' = true).
Proof.
  cbn [py_eq]. rewrite !andb_true_iff. intros [[_ Hkeys] Hmembers]. split.
  - intros k v' Hk. apply lookup_key_Some in Hk as (k' & Hin & Hk').
    apply String.eqb_eq in Hk'. subst k'.
    rewrite forallb_forall in Hkeys. apply list_elem_of_In in Hin.
    specialize (Hkeys _ Hin). cbn in Hkeys.
    by destruct (lookup_key k d).
  - clear Hkeys. induction d as [|[k0 v0] d IH]; intros k v Hin.
    { by apply elem_of_nil in Hin. }
    apply andb_true_iff in Hmembers as [Hhead Hrest].
    apply elem_of_cons in Hin as [[= -> ->]|Hin].
    + destruct (lookup_key k0 d') as [v'|]; [|done]. by exists v'.
    + by apply IH.
Qed.

Lemma py_eq_holds_nan (v : json) (rest : list json) (rest' : list json) :
  py_eq v (JList (JList (JFloat nan :: rest) :: rest')) = false.
Proof.
  destruct v as [|b|z|g|s|l|d]; try reflexivity.
  destruct l as [|y l]; [reflexivity|].
  assert (Hy : py_eq y (JList (JFloat nan :: rest)) = false).
  { destruct y as [|b|z|g|s|l'|d]; try reflexivity.
    destruct l' as [|a l']; [reflexivity|].
    cbn. by rewrite py_eq_nan. }
  cbn. cbn in Hy. by rewrite Hy.
Qed.



